(** * Verification of the entity tree and entity/component manager of rust-ecs

    Shallow embedding of [src/core/src/entity.rs], [error.rs],
    [entity_tree.rs] and [entity_component_manager.rs].
    The two [BTreeMap]s of [EntityTree] are stdpp [gmap]s (only lookups,
    inserts and removals are used, never their iteration order); every
    [&mut self] method is a function from the old state to the result and
    the new state. *)

From Equations Require Import Equations.
From stdpp Require Import base gmap list strings pretty.

(* ------------------------------------------------------------------ *)
(** ** entity.rs *)

(** [pub struct Entity(pub u64)]; the field is a 64-bit value. *)
Record Entity := Ent { ent_val : N }.

#[global] Instance Entity_eq_dec : EqDecision Entity.
Proof. solve_decision. Defined.

#[global] Instance Entity_countable : Countable Entity.
Proof.
  apply (inj_countable' ent_val Ent). intros [x]. reflexivity.
Defined.

(** [Entity::none()] *)
Definition none : Entity := Ent 0.

(** [Entity::is_none] *)
Definition is_none (e : Entity) : bool := N.eqb (ent_val e) (ent_val none).

(** [Entity::is_some] *)
Definition is_some (e : Entity) : bool := negb (is_none e).

(** [impl Display for Entity]: [write!(f, "Entity({})", self.0)], the
    field printed in decimal. *)
Definition entity_display (e : Entity) : string :=
  "Entity(" +:+ pretty (ent_val e) +:+ ")".

(* ------------------------------------------------------------------ *)
(** ** error.rs *)

Inductive FindEntityLocation := LocEntityTree | LocComponentManager.

Inductive EcsError :=
| EntityNotFound (e : Entity) (loc : FindEntityLocation)
| NoRootEntity.

(** Rust's [Result<A, EcsError>]. *)
Inductive Result (A : Type) :=
| Ok (a : A)
| Err (err : EcsError).
Arguments Ok {A} a.
Arguments Err {A} err.

(* ------------------------------------------------------------------ *)
(** ** entity_tree.rs *)

Record EntityTree := {
  root : option Entity;
  children : gmap Entity (list Entity);
  parent : gmap Entity (option Entity)
}.

(** [impl Default for EntityTree] *)
Definition tree_default : EntityTree :=
  {| root := None; children := ∅; parent := ∅ |}.

(** [EntityTree::set_root] *)
Definition set_root (t : EntityTree) (entity : Entity) : EntityTree :=
  {| root := Some entity; children := children t; parent := parent t |}.

(** [EntityTree::insert_node] *)
Definition insert_node (t : EntityTree) (entity : Entity) : EntityTree :=
  {| root := root t;
     children := <[entity := []]> (children t);
     parent := <[entity := None]> (parent t) |}.

(** [EntityTree::new] *)
Definition tree_new (root_entity : Entity) : EntityTree :=
  let tree := tree_default in
  if is_some root_entity
  then set_root (insert_node tree root_entity) root_entity
  else tree.

(** [EntityTree::remove] *)
Definition remove (t : EntityTree) (entity : Entity) : EntityTree :=
  {| root := root t;
     children := delete entity (children t);
     parent := delete entity (parent t) |}.

(** [EntityTree::len] *)
Definition len (t : EntityTree) : nat := size (children t).

(** [EntityTree::get_children] *)
Definition get_children (t : EntityTree) (entity : Entity) : Result (list Entity) :=
  match children t !! entity with
  | Some l => Ok l
  | None => Err (EntityNotFound entity LocEntityTree)
  end.

(** [EntityTree::get_parent]: [parent.get(&e).and_then(|p| p.as_ref())]. *)
Definition get_parent (t : EntityTree) (entity : Entity) : Result Entity :=
  match parent t !! entity with
  | Some (Some p) => Ok p
  | _ => Err (EntityNotFound entity LocEntityTree)
  end.

(** Matching on a value while remembering the equation. *)
Definition inspect {A} (a : A) : {b | a = b} := exist _ a eq_refl.

(** The only recursive call of [add_child] is made with [parent] equal to
    the root, so this measure decreases along it. *)
Definition retry_measure (t : EntityTree) (p : Entity) : nat :=
  if decide (root t = Some p) then 0 else 1.

(** [EntityTree::add_child].  The early returns leave [self] untouched;
    the success path pushes [child] onto the parent's vector, then does
    [self.parent.insert(child, Some(parent))] and
    [self.children.insert(child, Vec::new())]. *)
Equations? add_child (t : EntityTree) (p c : Entity) : Result unit * EntityTree
  by wf (retry_measure t p) lt :=
add_child t p c with inspect (is_none p && bool_decide (root t = None)) => {
  | exist _ true _ => (Err NoRootEntity, t)
  | exist _ false _ with inspect (children t !! p) => {
    | exist _ (Some ps) _ =>
        let t1 := {| root := root t;
                     children := <[p := ps ++ [c]]> (children t);
                     parent := parent t |} in
        let t2 := {| root := root t1; children := children t1;
                     parent := <[c := Some p]> (parent t1) |} in
        let t3 := {| root := root t2;
                     children := <[c := []]> (children t2);
                     parent := parent t2 |} in
        (Ok tt, t3)
    | exist _ None _ with inspect (root t) => {
      | exist _ (Some r) Hr with decide (p = r) => {
        | left _ => (Err (EntityNotFound p LocEntityTree), t)
        | right Hne => add_child t r c }
      | exist _ None _ => (Err (EntityNotFound p LocEntityTree), t) } } }.
Proof.
  unfold retry_measure. rewrite Hr.
  destruct (decide (Some r = Some r)) as [_|]; [|congruence].
  destruct (decide (Some r = Some p)) as [E|]; [congruence|lia].
Qed.



(** *** The traversal: [impl Iterator for EntityTreeIterator] *)

(** The ways [next] can panic: the explicit [panic!] when [current] has no
    children entry, an indexing [map[&k]] on a missing key, and the
    [.unwrap()] of [position]. *)
Inductive Panic := PanicNotInTree | PanicIndex | PanicUnwrap.

(** [siblings.iter().position(|s| *s == iter_node)] *)
Fixpoint position (x : Entity) (l : list Entity) : option nat :=
  match l with
  | [] => None
  | y :: ys => if decide (y = x) then Some 0 else S <$> position x ys
  end.

(** Outcome of the [while let Some(parent) = self.tree.parent[&iter_node]]
    loop: it panics, finds the next sibling ([return self.current]), or
    runs out of parents ([return None]).  The loop has no bound in Rust;
    [fuel] counts its iterations and [ClimbOutOfFuel] only means that
    more iterations were needed. *)
Inductive ClimbRes :=
| ClimbPanic (p : Panic)
| ClimbOutOfFuel
| ClimbFound (sibling : Entity)
| ClimbEnd.

Fixpoint climb (fuel : nat) (t : EntityTree) (iter_node : Entity) : ClimbRes :=
  match fuel with
  | O => ClimbOutOfFuel
  | S fuel' =>
      match parent t !! iter_node with
      | None => ClimbPanic PanicIndex
      | Some None => ClimbEnd
      | Some (Some p) =>
          match children t !! p with
          | None => ClimbPanic PanicIndex
          | Some siblings =>
              match position iter_node siblings with
              | None => ClimbPanic PanicUnwrap
              | Some i =>
                  let sibling_index := i + 1 in
                  if decide (sibling_index < length siblings) then
                    match siblings !! sibling_index with
                    | Some s => ClimbFound s
                    | None => ClimbPanic PanicIndex
                    end
                  else climb fuel' t p
              end
          end
      end
  end.

(** One call of [next]: a panic, or the returned item together with the
    new value of [self.current]. *)
Inductive Step :=
| StepPanic (p : Panic)
| StepOutOfFuel
| StepNext (item : option Entity) (current : option Entity).

Definition next (fuel : nat) (t : EntityTree) (current : option Entity) : Step :=
  match current with
  | Some cur =>
      match children t !! cur with
      | None => StepPanic PanicNotInTree
      | Some (first :: _) => StepNext (Some first) (Some first)
      | Some [] =>
          match climb fuel t cur with
          | ClimbFound s => StepNext (Some s) (Some s)
          | ClimbEnd => StepNext None (Some cur)
          | ClimbPanic p => StepPanic p
          | ClimbOutOfFuel => StepOutOfFuel
          end
      end
  | None => StepNext (root t) (root t)
  end.

(** [(&tree).into_iter()] starts with [current: None]. *)
Definition into_iter_current : option Entity := None.

(** The steps of [n] successive calls of [next]; a panic ends the run. *)
Fixpoint run_steps (fuel : nat) (t : EntityTree) (current : option Entity) (n : nat)
  : list Step :=
  match n with
  | O => []
  | S n' =>
      match next fuel t current with
      | StepNext item cur' => StepNext item cur' :: run_steps fuel t cur' n'
      | s => [s]
      end
  end.

(** The items returned by [n] successive calls of [next], if none panics. *)
Fixpoint collect (fuel : nat) (t : EntityTree) (current : option Entity) (n : nat)
  : option (list (option Entity)) :=
  match n with
  | O => Some []
  | S n' =>
      match next fuel t current with
      | StepNext item cur' => (item ::.) <$> collect fuel t cur' n'
      | _ => None
      end
  end.

(** *** Tree shapes
    A rose tree of entities, used to state what a well-formed tree
    looks like and what its pre-order is. *)
#[local] Set Warnings "-register-all".
Inductive rtree := RNode (a : Entity) (ts : list rtree).

Definition rlabel (T : rtree) : Entity := match T with RNode a _ => a end.

Fixpoint preorder (T : rtree) : list Entity :=
  match T with RNode a ts => a :: concat (map preorder ts) end.

Fixpoint subtrees (T : rtree) : list rtree :=
  match T with RNode a ts => RNode a ts :: concat (map subtrees ts) end.

Fixpoint height (T : rtree) : nat :=
  match T with RNode _ ts => list_max (map (fun u => S (height u)) ts) end.

(** The nodes of [T] after its root, in pre-order. *)
Definition rest (T : rtree) : list Entity :=
  match T with RNode _ ts => concat (map preorder ts) end.

(** The last element of [x :: l]. *)
Fixpoint final (x : Entity) (l : list Entity) : Entity :=
  match l with [] => x | y :: ys => final y ys end.

(** The last node of [T] in pre-order. *)
Definition last_node (T : rtree) : Entity := final (rlabel T) (rest T).

(** The maps record node [a] with children [ts], in this order. *)
Definition node_ok (t : EntityTree) (S : rtree) : Prop :=
  match S with
  | RNode a ts =>
      children t !! a = Some (map rlabel ts) /\
      Forall (fun u => parent t !! rlabel u = Some (Some a)) ts
  end.

(** [t] is the tree [T]: its root is the root of [T] (which has no parent),
    every node of [T] is recorded with its children in order and is the
    recorded parent of each of them, and no entity occurs twice in [T]. *)
Definition is_tree_of (t : EntityTree) (T : rtree) : Prop :=
  root t = Some (rlabel T) /\
  parent t !! rlabel T = Some None /\
  Forall (node_ok t) (subtrees T) /\
  NoDup (preorder T).

(** The rose tree [T] with a new leaf [c] appended as the last child of
    the node labelled [p]. *)
Fixpoint rinsert (p c : Entity) (T : rtree) : rtree :=
  match T with
  | RNode a ts =>
      RNode a (map (rinsert p c) ts ++ if decide (a = p) then [RNode c []] else [])
  end.

(** *** Sequences of tree operations *)
Inductive TreeOp :=
| OpInsertNode (e : Entity)
| OpSetRoot (e : Entity)
| OpAddChild (p c : Entity)
| OpRemove (e : Entity).

Definition apply_op (t : EntityTree) (op : TreeOp) : EntityTree :=
  match op with
  | OpInsertNode e => insert_node t e
  | OpSetRoot e => set_root t e
  | OpAddChild p c => snd (add_child t p c)
  | OpRemove e => remove t e
  end.

Definition run_ops (t : EntityTree) (ops : list TreeOp) : EntityTree :=
  fold_left apply_op ops t.

(* ------------------------------------------------------------------ *)
(** ** entity_component_manager.rs *)

(** [u64] addition as in a release build: wrap-around modulo 2^64. *)
Definition u64_add (a b : N) : N := N.modulo (a + b) (2 ^ 64).

Section Manager.
(** The component types.  [Ty] stands for the Rust types, compared by
    their [TypeId] (decidable equality); [El T] is the type of values of
    [T]; [type_name T] is [std::any::type_name::<T>()], which Rust does not
    promise to be injective, so it is an arbitrary function here. *)
Context {Ty : Type} `{EqDecision Ty} (El : Ty -> Type) (type_name : Ty -> string).

(** [Box<dyn Any>]: a value together with its runtime type. *)
Definition AnyBox : Type := sigT El.

(** [<dyn Any>::downcast_ref::<T>]: succeeds iff the runtime type is [T]. *)
Definition downcast_ref (T : Ty) (b : AnyBox) : option (El T) :=
  match decide (projT1 b = T) with
  | left H => Some (eq_rect _ El (projT2 b) _ H)
  | right _ => None
  end.

(** [type ComponentStore = HashMap<(Entity, String), Box<dyn Any>>] *)
Record EntityComponentManager := {
  component_store : gmap (Entity * string) AnyBox;
  entites : EntityTree;
  entity_counter : Entity
}.

(** [impl Default for EntityComponentManager] *)
Definition manager_default : EntityComponentManager :=
  {| component_store := ∅; entites := tree_default; entity_counter := Ent 0 |}.

(** [create_entity]: [self.entity_counter.0 += 1], register the node,
    return the counter. *)
Definition create_entity (m : EntityComponentManager)
  : Entity * EntityComponentManager :=
  let counter := Ent (u64_add (ent_val (entity_counter m)) 1) in
  let m' := {| component_store := component_store m;
               entites := insert_node (entites m) counter;
               entity_counter := counter |} in
  (entity_counter m', m').

(** [delete_entity]: [self.entites.remove(entity)] then
    [self.component_store.retain(|(e, _), _| *e != entity)]. *)
Definition delete_entity (m : EntityComponentManager) (entity : Entity)
  : EntityComponentManager :=
  {| component_store :=
       filter (fun kv : (Entity * string) * AnyBox => kv.1.1 <> entity)
              (component_store m);
     entites := remove (entites m) entity;
     entity_counter := entity_counter m |}.

(** [insert_component::<T>] *)
Definition insert_component (T : Ty) (m : EntityComponentManager)
  (entity : Entity) (component : El T) : EntityComponentManager :=
  {| component_store :=
       <[(entity, type_name T) := existT T component]> (component_store m);
     entites := entites m;
     entity_counter := entity_counter m |}.

(** [get_component::<T>] *)
Definition get_component (T : Ty) (m : EntityComponentManager) (entity : Entity)
  : option (El T) :=
  component_store m !! (entity, type_name T) ≫= downcast_ref T.

(** [remove_component::<T>] *)
Definition remove_component (T : Ty) (m : EntityComponentManager) (entity : Entity)
  : EntityComponentManager :=
  {| component_store := delete (entity, type_name T) (component_store m);
     entites := entites m;
     entity_counter := entity_counter m |}.

(** [n] successive calls of [create_entity]: the returned ids in order. *)
Fixpoint create_entities (n : nat) (m : EntityComponentManager)
  : list Entity * EntityComponentManager :=
  match n with
  | O => ([], m)
  | S n' =>
      let (e, m1) := create_entity m in
      let (es, m2) := create_entities n' m1 in
      (e :: es, m2)
  end.
End Manager.

Section ManagerMore.
Context {Ty : Type} `{EqDecision Ty} (El : Ty -> Type) (type_name : Ty -> string).

(** [<dyn Any>::downcast_mut::<T>]: the same type test as [downcast_ref];
    the [&mut T] it returns is the current value together with the box
    obtained by writing a new value through it. *)
Definition downcast_mut (T : Ty) (b : AnyBox El) : option (El T * (El T -> AnyBox El)) :=
  match decide (projT1 b = T) with
  | left H => Some (eq_rect _ El (projT2 b) _ H, fun v => existT T v)
  | right _ => None
  end.

(** [get_component_mut::<T>]: [get_mut] on the store, then [downcast_mut].
    The [&mut T] is the current value together with the manager obtained
    by writing a new value through it. *)
Definition get_component_mut (T : Ty) (m : EntityComponentManager El) (entity : Entity)
  : option (El T * (El T -> EntityComponentManager El)) :=
  let key := (entity, type_name T) in
  match component_store El m !! key with
  | None => None
  | Some b =>
      match downcast_mut T b with
      | None => None
      | Some (v, set) =>
          Some (v, fun v' =>
                  {| component_store := <[key := set v']> (component_store El m);
                     entites := entites El m;
                     entity_counter := entity_counter El m |})
      end
  end.

(** [<dyn Any>::is::<T>] *)
Definition is_ (T : Ty) (b : AnyBox El) : bool := bool_decide (projT1 b = T).

(** [queury_component::<T>]: iterate over the store, keep the boxes with
    [is::<T>()], and pair each entity with [downcast_ref::<T>().unwrap()];
    [None] stands for a panic of that [unwrap].  A [HashMap] iterates in an
    unspecified order; [map_to_list] is one such order, so the statements
    about this function speak of membership and multiplicity only. *)
Definition queury_component (T : Ty) (m : EntityComponentManager El)
  : option (list (Entity * El T)) :=
  mapM (fun kv : (Entity * string) * AnyBox El =>
          v ← downcast_ref El T kv.2; Some (kv.1.1, v))
       (filter (fun kv : (Entity * string) * AnyBox El => is_ T kv.2 = true)
               (map_to_list (component_store El m))).

(** The public operations of the manager, for histories of calls; a
    [MSetMut] call writes through the reference returned by
    [get_component_mut] when there is one. *)
Inductive ManagerOp :=
| MCreate
| MDelete (e : Entity)
| MInsert (T : Ty) (e : Entity) (v : El T)
| MRemove (T : Ty) (e : Entity)
| MSetMut (T : Ty) (e : Entity) (v : El T).

(** One call: the entities it returns (for [create_entity]) and the new
    manager. *)
Definition step_mop (m : EntityComponentManager El) (op : ManagerOp)
  : list Entity * EntityComponentManager El :=
  match op with
  | MCreate => let (e, m') := create_entity El m in ([e], m')
  | MDelete e => ([], delete_entity El m e)
  | MInsert T e v => ([], insert_component El type_name T m e v)
  | MRemove T e => ([], remove_component El type_name T m e)
  | MSetMut T e v =>
      ([], match get_component_mut T m e with
           | Some (_, set) => set v
           | None => m
           end)
  end.

Fixpoint run_mops (m : EntityComponentManager El) (ops : list ManagerOp)
  : list Entity * EntityComponentManager El :=
  match ops with
  | [] => ([], m)
  | op :: ops' =>
      let (out, m1) := step_mop m op in
      let (es, m2) := run_mops m1 ops' in
      (out ++ es, m2)
  end.

(** The number of [create_entity] calls in a history. *)
Fixpoint creates (ops : list ManagerOp) : nat :=
  match ops with
  | [] => 0
  | MCreate :: ops' => S (creates ops')
  | _ :: ops' => creates ops'
  end.

(** Every store entry sits under the name of its box's runtime type, as
    [insert_component] and writes through [get_component_mut] leave it. *)
Definition store_wf (m : EntityComponentManager El) : Prop :=
  forall e n b, component_store El m !! (e, n) = Some b -> n = type_name (projT1 b).
End ManagerMore.

(** A concrete universe of component types for the examples: [i32],
    [f32] (as a [Z]-valued stand-in; only its type identity matters here)
    and the spec's [Counter { value }] struct. *)
Inductive DemoTy := TyI32 | TyF32 | TyCounter.

#[global] Instance DemoTy_eq_dec : EqDecision DemoTy.
Proof. solve_decision. Defined.

Record Counter := { value : Z }.

Definition demo_el (T : DemoTy) : Type :=
  match T with TyI32 => Z | TyF32 => Z | TyCounter => Counter end.

Definition demo_type_name (T : DemoTy) : string :=
  match T with TyI32 => "i32" | TyF32 => "f32" | TyCounter => "rust_ecs::Counter" end.

(** Small concrete states used in the examples at the end of the file. *)
Definition demo_tree : EntityTree := set_root (insert_node tree_default (Ent 1)) (Ent 1).

Definition demo_manager : EntityComponentManager demo_el :=
  insert_component demo_el demo_type_name TyCounter
    (snd (create_entity demo_el (manager_default demo_el))) (Ent 1) {| value := 1 |}.

(** The tree invariant of the spec: the children mapping and the parent
    mapping have the same keys. *)
Definition tree_inv (t : EntityTree) : Prop := dom (children t) = dom (parent t).

(** The entities the traversal can make [current]: the root and every
    entity listed in some children sequence. *)
Definition walk_closed (t : EntityTree) : Prop :=
  (forall r, root t = Some r -> is_Some (children t !! r) /\ is_Some (parent t !! r)) /\
  (forall k l x, children t !! k = Some l -> x ∈ l ->
     is_Some (children t !! x) /\ is_Some (parent t !! x)).

(** The tree after a successful [add_child] that pushed [c] onto the
    vector [ps] of [p]. *)
Definition pushed (t : EntityTree) (p : Entity) (ps : list Entity) (c : Entity)
  : EntityTree :=
  {| root := root t;
     children := <[c := []]> (<[p := ps ++ [c]]> (children t));
     parent := <[c := Some p]> (parent t) |}.

(** Starting from [current = Some x], successive calls of [next] return
    the entities of [l] in order. *)
Fixpoint links (fuel : nat) (t : EntityTree) (x : Entity) (l : list Entity) : Prop :=
  match l with
  | [] => True
  | y :: ys => next fuel t (Some x) = StepNext (Some y) (Some y) /\ links fuel t y ys
  end.

(* ================================================================== *)
(** * Proofs *)

Example add_child_ex :
  fst (add_child (set_root (insert_node tree_default (Ent 1)) (Ent 1)) (Ent 1) (Ent 2)) = Ok tt.
Proof. reflexivity. Qed.

Example test_tree_iterator_ex :
  let r := Ent 1 in let c1 := Ent 2 in let c2 := Ent 3 in let c3 := Ent 4 in
  let t0 := set_root (insert_node tree_default r) r in
  let t1 := snd (add_child t0 r c1) in
  let t2 := snd (add_child t1 r c2) in
  let t3 := snd (add_child t2 c2 c3) in
  collect 10 t3 into_iter_current 6 = Some [Some r; Some c1; Some c2; Some c3; None; None].
Proof. reflexivity. Qed.

(* ------------------------------------------------------------------ *)
(** ** add_child *)

Lemma add_child_eqn t p c : add_child t p c =
  if is_none p && bool_decide (root t = None) then (Err NoRootEntity, t) else
  match children t !! p with
  | Some ps =>
      (Ok tt, {| root := root t;
                 children := <[c := []]> (<[p := ps ++ [c]]> (children t));
                 parent := <[c := Some p]> (parent t) |})
  | None =>
      match root t with
      | Some r =>
          if decide (p = r) then (Err (EntityNotFound p LocEntityTree), t)
          else add_child t r c
      | None => (Err (EntityNotFound p LocEntityTree), t)
      end
  end.
Proof.
  funelim (add_child t p c); simpl in *;
    try rewrite e; try rewrite e0; try rewrite e1; try rewrite Hr; simpl;
    try reflexivity.
  all: first [ rewrite decide_True; [reflexivity | congruence]
             | rewrite decide_False; [reflexivity | congruence] ].
Qed.

(** Every call either fails and returns the tree it was given, or pushes
    [c] under some recorded entity. *)
Lemma add_child_outcome t p c :
  (exists e, add_child t p c = (Err e, t)) \/
  (exists p' ps, children t !! p' = Some ps /\
     add_child t p c = (Ok tt, pushed t p' ps c)).
Proof.
  rewrite add_child_eqn.
  destruct (is_none p && bool_decide (root t = None)); [left; eauto|].
  destruct (children t !! p) as [ps|] eqn:Hp; [right; eauto|].
  destruct (root t) as [r|] eqn:Hr; [|left; eauto].
  destruct (decide (p = r)) as [->|Hne]; [left; eauto|].
  rewrite add_child_eqn, Hr.
  assert (Hb : is_none r && bool_decide (Some r = None) = false)
    by (rewrite bool_decide_false by congruence; apply andb_false_r).
  rewrite Hb.
  destruct (children t !! r) as [rs|] eqn:Hrs.
  - right. exists r, rs. unfold pushed. rewrite Hr. auto.
  - rewrite decide_True by reflexivity. left; eauto.
Qed.

(** ** C10 *)
(** C10: whenever [add_child p c] returns an error ([NoRootEntity] or
    [EntityNotFound]), the root, the children mapping and the parent
    mapping are exactly as before the call. *)
Theorem add_child_err_unchanged (t t' : EntityTree) (p c : Entity) (e : EcsError) :
  add_child t p c = (Err e, t') ->
  t' = t /\ root t' = root t /\ children t' = children t /\ parent t' = parent t.
Proof.
  intros H. destruct (add_child_outcome t p c) as [[e' H']|[p' [ps [_ H']]]];
    rewrite H' in H; inversion H; subst; auto.
Qed.

(** ** C3 *)
(** C3: when [p] has no children entry, [add_child p c] fails with
    [NoRootEntity] if there is no root and [p] is the none sentinel, fails
    with [EntityNotFound] if there is no root and [p] is not none or if [p]
    is the root, and otherwise behaves exactly as [add_child root c]. *)
Theorem add_child_unknown_parent (t : EntityTree) (p c : Entity) :
  children t !! p = None ->
  (root t = None -> p = none -> add_child t p c = (Err NoRootEntity, t)) /\
  (root t = None -> p <> none ->
     add_child t p c = (Err (EntityNotFound p LocEntityTree), t)) /\
  (root t = Some p -> add_child t p c = (Err (EntityNotFound p LocEntityTree), t)) /\
  (forall r, root t = Some r -> p <> r -> add_child t p c = add_child t r c).
Proof.
  intros Hp. split; [|split; [|split]].
  - intros Hr ->. rewrite add_child_eqn, Hr. reflexivity.
  - intros Hr Hne. rewrite add_child_eqn, Hp, Hr, bool_decide_true by reflexivity.
    destruct p as [v]. unfold is_none. simpl.
    destruct (N.eqb_spec v 0) as [->|]; [exfalso; apply Hne; reflexivity|reflexivity].
  - intros Hr. rewrite add_child_eqn, Hp, Hr, bool_decide_false by congruence.
    rewrite andb_false_r, decide_True by reflexivity. reflexivity.
  - intros r Hr Hne. rewrite add_child_eqn at 1.
    rewrite Hp, Hr, bool_decide_false by congruence.
    rewrite andb_false_r, decide_False by exact Hne. reflexivity.
Qed.

Lemma is_none_true (e : Entity) : is_none e = true <-> e = none.
Proof.
  destruct e as [v]. unfold is_none, none. simpl.
  rewrite N.eqb_eq. split; [intros ->|intros H; inversion H]; reflexivity.
Qed.

(** ** C1 *)
(** C1 (amended): when [p] has a children entry, [add_child p c] fails with
    [NoRootEntity] if [p] is the none sentinel and there is no root;
    otherwise it succeeds, the root is unchanged, [c]'s parent entry becomes
    [Some p], [c]'s children entry becomes a new empty sequence (an existing
    entry of [c] is replaced), for [c <> p] the sequence of [p] is the old one
    with [c] appended, and no other entry changes. *)
Theorem add_child_existing_parent (t : EntityTree) (p c : Entity) (ps : list Entity) :
  children t !! p = Some ps ->
  (p = none -> root t = None -> add_child t p c = (Err NoRootEntity, t)) /\
  (~ (p = none /\ root t = None) ->
   exists t', add_child t p c = (Ok tt, t') /\
     root t' = root t /\
     parent t' !! c = Some (Some p) /\
     children t' !! c = Some [] /\
     (c <> p -> children t' !! p = Some (ps ++ [c])) /\
     (forall k, k <> p -> k <> c -> children t' !! k = children t !! k) /\
     (forall k, k <> c -> parent t' !! k = parent t !! k)).
Proof.
  intros Hp. split.
  - intros -> Hr. rewrite add_child_eqn, Hr. reflexivity.
  - intros Hn. rewrite add_child_eqn.
    assert (Hb : is_none p && bool_decide (root t = None) = false).
    { destruct (is_none p) eqn:E; [|reflexivity].
      apply is_none_true in E. simpl. apply bool_decide_false. tauto. }
    rewrite Hb, Hp. eexists; split; [reflexivity|]. simpl.
    split; [reflexivity|].
    split; [apply lookup_insert_eq|].
    split; [apply lookup_insert_eq|].
    split; [intros Hne; rewrite lookup_insert_ne by congruence; apply lookup_insert_eq|].
    split.
    + intros k Hkp Hkc. rewrite !lookup_insert_ne by congruence. reflexivity.
    + intros k Hkc. rewrite lookup_insert_ne by congruence. reflexivity.
Qed.

(** C1 refuted as stated: in the tree with root 1, child 2 of 1 and child 3
    of 2, entity 2 has the children entry [3]; re-adding 2 under 1 succeeds
    but leaves 2 with the empty children entry instead of keeping [3]. *)
Lemma add_child_resets_children_cex :
  let t0 := set_root (insert_node tree_default (Ent 1)) (Ent 1) in
  let t := snd (add_child (snd (add_child t0 (Ent 1) (Ent 2))) (Ent 2) (Ent 3)) in
  children t !! Ent 1 <> None /\
  children t !! Ent 2 = Some [Ent 3] /\
  fst (add_child t (Ent 1) (Ent 2)) = Ok tt /\
  children (snd (add_child t (Ent 1) (Ent 2))) !! Ent 2 = Some [].
Proof. vm_compute. repeat split; congruence. Qed.

(** ** C7 *)
(** C7: "the children mapping and the parent mapping have the same keys"
    holds for the default tree and for [EntityTree::new], and is preserved by
    [insert_node], [set_root], [add_child] (whether it succeeds or fails) and
    [remove]. *)
Theorem tree_inv_preserved :
  tree_inv tree_default /\
  (forall e, tree_inv (tree_new e)) /\
  (forall t, tree_inv t ->
     (forall e, tree_inv (insert_node t e)) /\
     (forall e, tree_inv (set_root t e)) /\
     (forall p c, tree_inv (snd (add_child t p c))) /\
     (forall e, tree_inv (remove t e))).
Proof.
  unfold tree_inv.
  split; [reflexivity|]. split.
  { intros e. unfold tree_new. destruct (is_some e); simpl; [|reflexivity].
    rewrite !dom_insert_L. reflexivity. }
  intros t Ht. split; [|split; [|split]].
  - intros e. simpl. rewrite !dom_insert_L, Ht. reflexivity.
  - intros e. exact Ht.
  - intros p c. destruct (add_child_outcome t p c) as [[e H]|[p' [ps [Hp H]]]];
      rewrite H; [exact Ht|]. simpl.
    rewrite !dom_insert_L, <- Ht.
    assert (p' ∈ dom (children t)) by (apply elem_of_dom; eauto).
    set_solver.
  - intros e. simpl. rewrite !dom_delete_L, Ht. reflexivity.
Qed.

(* ------------------------------------------------------------------ *)
(** ** Lookups after sequences of operations *)

Lemma run_ops_invariant (P : EntityTree -> Prop) (Q : TreeOp -> Prop) :
  (forall t op, Q op -> P t -> P (apply_op t op)) ->
  forall ops t, Forall Q ops -> P t -> P (run_ops t ops).
Proof.
  intros Hstep ops. induction ops as [|op ops IH]; intros t Hall Ht; [exact Ht|].
  inversion Hall; subst. simpl. apply IH; auto.
Qed.

Lemma absent_preserved (e : Entity) (t : EntityTree) (op : TreeOp) :
  (op <> OpInsertNode e /\ forall p, op <> OpAddChild p e) ->
  children t !! e = None /\ parent t !! e = None ->
  children (apply_op t op) !! e = None /\ parent (apply_op t op) !! e = None.
Proof.
  intros [Hi Ha] [Hc Hp]. destruct op as [x|x|p c|x]; simpl.
  - assert (Hxe : x <> e) by congruence. rewrite !lookup_insert_ne by congruence. auto.
  - auto.
  - assert (Hce : c <> e) by (intros ->; apply (Ha p); reflexivity).
    destruct (add_child_outcome t p c) as [[err H]|[p' [ps [Hp' H]]]];
      rewrite H; simpl; [auto|].
    assert (Hpe : p' <> e) by congruence.
    rewrite !lookup_insert_ne by congruence. auto.
  - destruct (decide (x = e)) as [->|Hne].
    + rewrite !lookup_delete_eq. auto.
    + rewrite !lookup_delete_ne by congruence. auto.
Qed.

Lemma parentless_preserved (r : Entity) (t : EntityTree) (op : TreeOp) :
  (op <> OpRemove r /\ forall p, op <> OpAddChild p r) ->
  is_Some (children t !! r) /\ parent t !! r = Some None ->
  is_Some (children (apply_op t op) !! r) /\ parent (apply_op t op) !! r = Some None.
Proof.
  intros [Hrm Ha] [Hc Hp]. destruct op as [x|x|p c|x]; simpl.
  - destruct (decide (x = r)) as [->|Hne].
    + rewrite !lookup_insert_eq. eauto.
    + rewrite !lookup_insert_ne by congruence. auto.
  - auto.
  - assert (Hcr : c <> r) by (intros ->; apply (Ha p); reflexivity).
    destruct (add_child_outcome t p c) as [[err H]|[p' [ps [Hp' H]]]];
      rewrite H; simpl; [auto|].
    rewrite (lookup_insert_ne _ c r) by congruence.
    rewrite (lookup_insert_ne _ c r) by congruence.
    split; [|exact Hp].
    destruct (decide (p' = r)) as [->|Hne].
    + rewrite lookup_insert_eq. eauto.
    + rewrite lookup_insert_ne by congruence. exact Hc.
  - assert (x <> r) by congruence. rewrite !lookup_delete_ne by congruence. auto.
Qed.

(** ** C8 *)
(** C8: for a tree built from the default tree by any sequence of
    operations, an entity that was never inserted (no [insert_node e] and
    no [add_child _ e]) makes both [get_children] and [get_parent] fail with
    [EntityNotFound]; and an entity [r] inserted with [insert_node r] and
    made root, afterwards never given a parent by [add_child _ r] nor
    removed, makes [get_parent r] fail with [EntityNotFound] while
    [get_children r] succeeds. *)
Theorem get_children_parent_errors :
  (forall (ops : list TreeOp) (e : Entity),
     Forall (fun op => op <> OpInsertNode e /\ forall p, op <> OpAddChild p e) ops ->
     get_children (run_ops tree_default ops) e = Err (EntityNotFound e LocEntityTree) /\
     get_parent (run_ops tree_default ops) e = Err (EntityNotFound e LocEntityTree)) /\
  (forall (pre post : list TreeOp) (r : Entity),
     Forall (fun op => op <> OpRemove r /\ forall p, op <> OpAddChild p r) post ->
     let t := run_ops tree_default (pre ++ OpInsertNode r :: OpSetRoot r :: post) in
     get_parent t r = Err (EntityNotFound r LocEntityTree) /\
     exists l, get_children t r = Ok l).
Proof.
  split.
  - intros ops e Hops.
    destruct (run_ops_invariant
                (fun t => children t !! e = None /\ parent t !! e = None) _
                (absent_preserved e) ops tree_default Hops) as [Hc Hp];
      [split; apply lookup_empty|].
    unfold get_children, get_parent. rewrite Hc, Hp. auto.
  - intros pre post r Hpost t. unfold t, run_ops.
    rewrite fold_left_app. simpl.
    set (t0 := set_root (insert_node (fold_left apply_op pre tree_default) r) r).
    assert (H0 : is_Some (children t0 !! r) /\ parent t0 !! r = Some None).
    { simpl. rewrite !lookup_insert_eq. eauto. }
    destruct (run_ops_invariant
                (fun t => is_Some (children t !! r) /\ parent t !! r = Some None) _
                (parentless_preserved r) post t0 Hpost H0) as [[l Hc] Hp].
    unfold run_ops in Hc, Hp. unfold get_children, get_parent.
    rewrite Hc, Hp. eauto.
Qed.

(* ------------------------------------------------------------------ *)
(** ** The component manager *)

Section ManagerProofs.
Context {Ty : Type} `{EqDecision Ty} (El : Ty -> Type) (type_name : Ty -> string).

Lemma downcast_ref_same (T : Ty) (v : El T) :
  downcast_ref El T (existT T v) = Some v.
Proof.
  unfold downcast_ref. simpl. destruct (decide (T = T)) as [H|]; [|congruence].
  f_equal. symmetry. apply Eqdep_dec.eq_rect_eq_dec.
  intros x y. destruct (decide (x = y)); [left|right]; assumption.
Qed.

Lemma downcast_ref_other (T U : Ty) (v : El T) :
  U <> T -> downcast_ref El U (existT T v) = None.
Proof.
  intros Hne. unfold downcast_ref. simpl.
  destruct (decide (T = U)); [congruence|reflexivity].
Qed.

(** ** C5 *)
(** C5: after [insert_component::<T>(e, v)], [get_component::<T>(e)]
    returns [v] (whatever was stored before), and for a type [U <> T]
    whose component was not retrievable for [e] before, it still returns
    [None] afterwards (also when [type_name] of [U] and [T] coincide). *)
Theorem insert_get_component (T : Ty) (m : EntityComponentManager El)
  (e : Entity) (v : El T) :
  get_component El type_name T (insert_component El type_name T m e v) e = Some v /\
  (forall U : Ty, U <> T -> get_component El type_name U m e = None ->
     get_component El type_name U (insert_component El type_name T m e v) e = None).
Proof.
  unfold get_component, insert_component. simpl. split.
  - rewrite lookup_insert_eq. simpl. apply downcast_ref_same.
  - intros U Hne Hbefore.
    destruct (decide (type_name T = type_name U)) as [Hn|Hn].
    + rewrite Hn, lookup_insert_eq. simpl. apply downcast_ref_other. exact Hne.
    + rewrite lookup_insert_ne by congruence. exact Hbefore.
Qed.

(** ** C4 *)
(** C4 (amended): [delete_entity(e)] removes [e]'s children and parent
    entries, so [get_children e] and [get_parent e] then fail, and removes
    every store entry whose entity half is [e], so no component of any
    type is retrievable for [e]; it leaves the whole manager unchanged
    when [e] has no tree entry and no component stored under it (a
    component inserted for an entity that was never created is still
    removed). *)
Theorem delete_entity_spec (m : EntityComponentManager El) (e : Entity) :
  let m' := delete_entity El m e in
  children (entites El m') !! e = None /\
  parent (entites El m') !! e = None /\
  get_children (entites El m') e = Err (EntityNotFound e LocEntityTree) /\
  get_parent (entites El m') e = Err (EntityNotFound e LocEntityTree) /\
  (forall s, component_store El m' !! (e, s) = None) /\
  (forall T, get_component El type_name T m' e = None) /\
  (children (entites El m) !! e = None -> parent (entites El m) !! e = None ->
   (forall s, component_store El m !! (e, s) = None) -> m' = m).
Proof.
  intros m'.
  assert (Hstore : forall s, component_store El m' !! (e, s) = None).
  { intros s. simpl. apply map_lookup_filter_None. right. simpl. auto. }
  assert (Hc : children (entites El m') !! e = None) by apply lookup_delete_eq.
  assert (Hp : parent (entites El m') !! e = None) by apply lookup_delete_eq.
  split; [exact Hc|]. split; [exact Hp|].
  split; [unfold get_children; rewrite Hc; reflexivity|].
  split; [unfold get_parent; rewrite Hp; reflexivity|].
  split; [exact Hstore|].
  split; [intros T; unfold get_component; rewrite Hstore; reflexivity|].
  intros Hc0 Hp0 Hs0. destruct m as [store tree counter]. unfold m', delete_entity.
  simpl in *. f_equal.
  - apply map_filter_id. intros [e' s] b Hb. simpl. intros ->. congruence.
  - destruct tree as [r ch pa]. unfold remove. simpl in *.
    rewrite !delete_id by assumption. reflexivity.
Qed.

Lemma create_entities_S (n : nat) (m : EntityComponentManager El) :
  create_entities El (S n) m =
  ((create_entity El m).1 :: (create_entities El n (create_entity El m).2).1,
   (create_entities El n (create_entity El m).2).2).
Proof. simpl. destruct (create_entities El n _); reflexivity. Qed.

Lemma create_entity_registers (m : EntityComponentManager El) :
  children (entites El (create_entity El m).2) !! (create_entity El m).1 = Some [] /\
  parent (entites El (create_entity El m).2) !! (create_entity El m).1 = Some None.
Proof. simpl. rewrite !lookup_insert_eq. auto. Qed.

Lemma create_entities_keeps_registered (n : nat) (m : EntityComponentManager El)
  (x : Entity) :
  children (entites El m) !! x = Some [] -> parent (entites El m) !! x = Some None ->
  children (entites El (create_entities El n m).2) !! x = Some [] /\
  parent (entites El (create_entities El n m).2) !! x = Some None.
Proof.
  revert m. induction n as [|n IH]; intros m Hc Hp; [auto|].
  rewrite create_entities_S. simpl. apply IH; simpl.
  - destruct (decide (Ent (u64_add (ent_val (entity_counter El m)) 1) = x)) as [<-|].
    + apply lookup_insert_eq.
    + rewrite lookup_insert_ne by assumption. exact Hc.
  - destruct (decide (Ent (u64_add (ent_val (entity_counter El m)) 1) = x)) as [<-|].
    + apply lookup_insert_eq.
    + rewrite lookup_insert_ne by assumption. exact Hp.
Qed.

Lemma create_entities_ids (n : nat) (m : EntityComponentManager El) :
  (ent_val (entity_counter El m) + N.of_nat n < 2 ^ 64)%N ->
  (create_entities El n m).1 =
    map (fun i => Ent (ent_val (entity_counter El m) + N.of_nat i)) (seq 1 n) /\
  Forall (fun x => children (entites El (create_entities El n m).2) !! x = Some [] /\
                   parent (entites El (create_entities El n m).2) !! x = Some None)
         (create_entities El n m).1.
Proof.
  revert m. induction n as [|n IH]; intros m Hb; [split; [reflexivity|constructor]|].
  rewrite create_entities_S.
  set (k := ent_val (entity_counter El m)) in *.
  assert (Hk : u64_add k 1 = (k + 1)%N).
  { unfold u64_add. apply N.mod_small. lia. }
  set (m1 := (create_entity El m).2).
  assert (Hm1 : ent_val (entity_counter El m1) = (k + 1)%N) by exact Hk.
  assert (He : (create_entity El m).1 = Ent (k + 1)) by (simpl; fold k; rewrite Hk; reflexivity).
  pose proof (create_entities_keeps_registered n m1 (create_entity El m).1
                (proj1 (create_entity_registers m)) (proj2 (create_entity_registers m)))
    as Hfirst.
  destruct (IH m1) as [Hids Hreg]; [rewrite Hm1; lia|].
  rewrite Hm1 in Hids. rewrite He in Hfirst |- *.
  destruct (create_entities El n m1) as [es m2]. simpl in *.
  split.
  - rewrite Hids. change (N.of_nat 1) with 1%N. f_equal.
    rewrite <- (seq_shift n 1), map_map. apply map_ext. intros i. f_equal. lia.
  - constructor; [exact Hfirst|exact Hreg].
Qed.

(** ** C9 *)
(** C9: [create_entity] always returns an id (it has no error case) and
    registers it as a tree node (empty children, no parent); from a fresh
    manager, [n] successive calls (with [n] below the 64-bit limit, whose
    exhaustion is a non-goal) return the ids [1, 2, ..., n]: strictly
    increasing, starting at 1, never the sentinel 0, and all registered in
    the tree afterwards. *)
Theorem create_entity_ids :
  (forall m : EntityComponentManager El,
     children (entites El (create_entity El m).2) !! (create_entity El m).1 = Some [] /\
     parent (entites El (create_entity El m).2) !! (create_entity El m).1 = Some None) /\
  (forall n : nat, (N.of_nat n < 2 ^ 64)%N ->
     let '(es, m) := create_entities El n (manager_default El) in
     es = map (fun i => Ent (N.of_nat i)) (seq 1 n) /\
     (forall i, i < n -> es !! i = Some (Ent (N.of_nat (S i)))) /\
     (forall i j a b, es !! i = Some a -> es !! j = Some b -> i < j ->
        (ent_val a < ent_val b)%N) /\
     (none ∉ es) /\
     Forall (fun x => children (entites El m) !! x = Some [] /\
                      parent (entites El m) !! x = Some None) es).
Proof.
  split; [apply create_entity_registers|].
  intros n Hn.
  destruct (create_entities_ids n (manager_default El)) as [Hids Hreg];
    [simpl; lia|].
  destruct (create_entities El n (manager_default El)) as [es m] eqn:E.
  simpl in Hids, Hreg.
  assert (Hes : es = map (fun i => Ent (N.of_nat i)) (seq 1 n)).
  { rewrite Hids. apply map_ext. intros i. reflexivity. }
  assert (Hlk : forall i a, es !! i = Some a -> a = Ent (N.of_nat (S i)) /\ i < n).
  { intros i a Ha. rewrite Hes, list_lookup_fmap in Ha.
    destruct (seq 1 n !! i) as [j|] eqn:Hj; [|discriminate].
    apply lookup_seq in Hj as [-> Hi]. simpl in Ha. inversion Ha. auto. }
  split; [exact Hes|]. split; [|split; [|split]].
  - intros i Hi. rewrite Hes, list_lookup_fmap.
    assert (seq 1 n !! i = Some (1 + i)) as -> by (apply lookup_seq; lia).
    reflexivity.
  - intros i j a b Ha Hb Hij.
    apply Hlk in Ha as [-> _]. apply Hlk in Hb as [-> _]. simpl. lia.
  - intros Hin. apply list_elem_of_lookup in Hin as [i Hi].
    apply Hlk in Hi as [Hi _]. unfold none in Hi. inversion Hi; lia.
  - exact Hreg.
Qed.
End ManagerProofs.

(** C4 refuted as stated: on a fresh manager (no entity ever created),
    attaching a [Counter] to entity 5 and then deleting entity 5 does not
    leave the manager unchanged: the orphan component is purged. *)
Lemma delete_entity_not_noop_cex :
  let m := insert_component demo_el demo_type_name TyCounter
             (manager_default demo_el) (Ent 5) {| value := 1 |} in
  entity_counter demo_el m = Ent 0 /\
  children (entites demo_el m) !! Ent 5 = None /\
  delete_entity demo_el m (Ent 5) <> m.
Proof.
  intros m. split; [reflexivity|]. split; [reflexivity|].
  intros H.
  apply (f_equal (fun m0 => get_component demo_el demo_type_name TyCounter m0 (Ent 5))) in H.
  vm_compute in H. discriminate.
Qed.

(* ------------------------------------------------------------------ *)
(** ** The traversal *)

Lemma position_some (x : Entity) (l : list Entity) (i : nat) :
  position x l = Some i -> l !! i = Some x.
Proof.
  revert i. induction l as [|y ys IH]; intros i H; simpl in H; [discriminate|].
  destruct (decide (y = x)) as [->|Hne].
  - inversion H. reflexivity.
  - destruct (position x ys) as [j|] eqn:E; simpl in H; [|discriminate].
    inversion H; subst. simpl. apply IH. reflexivity.
Qed.

(** The loop only ever returns an entity that is listed in some children
    sequence, and never raises the "not found in tree" panic. *)
Lemma climb_found_listed (fuel : nat) (t : EntityTree) (x s : Entity) :
  climb fuel t x = ClimbFound s ->
  exists k l, children t !! k = Some l /\ s ∈ l.
Proof.
  revert x. induction fuel as [|fuel IH]; intros x H; simpl in H; [discriminate|].
  destruct (parent t !! x) as [[p|]|]; try discriminate.
  destruct (children t !! p) as [sibs|] eqn:Hs; [|discriminate].
  destruct (position x sibs) as [i|]; [|discriminate].
  destruct (decide (i + 1 < length sibs)).
  - destruct (sibs !! (i + 1)) as [s'|] eqn:Hl; inversion H; subst.
    exists p, sibs. split; [exact Hs|]. apply list_elem_of_lookup. eauto.
  - eapply IH. exact H.
Qed.

Lemma climb_not_not_in_tree (fuel : nat) (t : EntityTree) (x : Entity) :
  climb fuel t x <> ClimbPanic PanicNotInTree.
Proof.
  revert x. induction fuel as [|fuel IH]; intros x; simpl; [discriminate|].
  destruct (parent t !! x) as [[p|]|]; try discriminate.
  destruct (children t !! p) as [sibs|]; [|discriminate].
  destruct (position x sibs) as [i|]; [|discriminate].
  destruct (decide (i + 1 < length sibs)); [|apply IH].
  destruct (sibs !! (i + 1)); discriminate.
Qed.

Definition cursor_ok (t : EntityTree) (cur : option Entity) : Prop :=
  match cur with
  | None => True
  | Some c => is_Some (children t !! c) /\ is_Some (parent t !! c)
  end.

Lemma next_cursor_ok (fuel : nat) (t : EntityTree) (cur : option Entity) :
  walk_closed t -> cursor_ok t cur ->
  next fuel t cur <> StepPanic PanicNotInTree /\
  (forall item cur', next fuel t cur = StepNext item cur' -> cursor_ok t cur').
Proof.
  intros [Hroot Hlist] Hcur. destruct cur as [c|]; simpl.
  - destruct Hcur as [[l Hl] Hp]. rewrite Hl.
    destruct l as [|first more].
    + pose proof (climb_not_not_in_tree fuel t c) as Hn.
      pose proof (climb_found_listed fuel t c) as Hf.
      destruct (climb fuel t c) as [pn| |s|].
      * split; [|discriminate]. intros H. inversion H; subst. congruence.
      * split; discriminate.
      * split; [discriminate|]. intros item cur' H. inversion H; subst. simpl.
        destruct (Hf s eq_refl) as [k [l' [Hk Hs]]]. exact (Hlist k l' s Hk Hs).
      * split; [discriminate|]. intros item cur' H. inversion H; subst. simpl.
        split; [eexists; exact Hl|exact Hp].
    + split; [discriminate|]. intros item cur' H. inversion H; subst. simpl.
      apply (Hlist c (first :: more) first Hl). left.
  - split; [discriminate|]. intros item cur' H. inversion H; subst.
    destruct (root t) as [r|] eqn:Hr; simpl; [|exact I]. apply Hroot. reflexivity.
Qed.

(** ** C6 *)
(** C6: a call of [next] whose current entity has no children entry is a
    panic ([panic!], not an [Err] and not a skipped entity); and when the
    root and every entity listed in a children sequence (the only entities
    the walk can make current) have an entry in both mappings, no run of the
    iterator from a fresh [into_iter] ever reaches that panic. *)
Theorem next_missing_entry_panics :
  (forall (fuel : nat) (t : EntityTree) (c : Entity),
     children t !! c = None -> next fuel t (Some c) = StepPanic PanicNotInTree) /\
  (forall (fuel : nat) (t : EntityTree) (n : nat),
     walk_closed t -> StepPanic PanicNotInTree ∉ run_steps fuel t into_iter_current n).
Proof.
  split.
  - intros fuel t c H. simpl. rewrite H. reflexivity.
  - intros fuel t n Hw.
    assert (Hgen : forall cur, cursor_ok t cur ->
              StepPanic PanicNotInTree ∉ run_steps fuel t cur n).
    { induction n as [|n IH]; intros cur Hcur; simpl; [apply not_elem_of_nil|].
      destruct (next_cursor_ok fuel t cur Hw Hcur) as [Hn Hc].
      destruct (next fuel t cur) as [pn| |item cur'] eqn:E.
      - rewrite list_elem_of_singleton. intros H. apply Hn. symmetry. exact H.
      - rewrite list_elem_of_singleton. discriminate.
      - rewrite elem_of_cons. intros [H|H]; [discriminate|].
        exact (IH cur' (Hc item cur' eq_refl) H). }
    apply Hgen. exact I.
Qed.

(* ------------------------------------------------------------------ *)
(** ** Pre-order of well-formed trees *)

(** Induction on rose trees, with the hypothesis for every child. *)
Fixpoint rtree_ind' (P : rtree -> Prop)
  (H : forall a ts, Forall P ts -> P (RNode a ts)) (T : rtree) : P T :=
  match T with
  | RNode a ts =>
      H a ts ((fix go (ts : list rtree) : Forall P ts :=
                 match ts with
                 | [] => @List.Forall_nil rtree P
                 | u :: us => @List.Forall_cons rtree P u us (rtree_ind' P H u) (go us)
                 end) ts)
  end.

Lemma final_app (x : Entity) (l1 l2 : list Entity) :
  final x (l1 ++ l2) = final (final x l1) l2.
Proof. revert x. induction l1 as [|y l1 IH]; intros x; simpl; auto. Qed.

Lemma links_app (fuel : nat) (t : EntityTree) (x : Entity) (l1 l2 : list Entity) :
  links fuel t x (l1 ++ l2) <-> links fuel t x l1 /\ links fuel t (final x l1) l2.
Proof.
  revert x. induction l1 as [|y l1 IH]; intros x; simpl; [tauto|].
  rewrite IH. tauto.
Qed.

Lemma collect_S (fuel : nat) (t : EntityTree) (cur : option Entity) (n : nat) :
  collect fuel t cur (S n) =
  match next fuel t cur with
  | StepNext item cur' => (item ::.) <$> collect fuel t cur' n
  | _ => None
  end.
Proof. reflexivity. Qed.

Lemma collect_links (fuel : nat) (t : EntityTree) (x : Entity) (l : list Entity) :
  links fuel t x l ->
  next fuel t (Some (final x l)) = StepNext None (Some (final x l)) ->
  collect fuel t (Some x) (S (length l)) = Some (map Some l ++ [None]).
Proof.
  revert x. induction l as [|y l IH]; intros x Hl Hend;
    cbn [final links length map app] in *; rewrite collect_S.
  - rewrite Hend. reflexivity.
  - destruct Hl as [Hxy Hl]. rewrite Hxy.
    rewrite (IH y Hl Hend). reflexivity.
Qed.

Lemma position_nodup (x : Entity) (l : list Entity) (i : nat) :
  NoDup l -> l !! i = Some x -> position x l = Some i.
Proof.
  revert i. induction l as [|y ys IH]; intros i Hnd Hi; [discriminate|].
  apply NoDup_cons in Hnd as [Hy Hnd]. simpl.
  destruct i as [|i]; simpl in Hi.
  - inversion Hi; subst. rewrite decide_True by reflexivity. reflexivity.
  - assert (y <> x).
    { intros ->. apply Hy. apply list_elem_of_lookup. eauto. }
    rewrite decide_False by assumption. rewrite (IH i Hnd Hi). reflexivity.
Qed.

Lemma rlabel_in_preorder (u : rtree) : rlabel u ∈ preorder u.
Proof. destruct u. simpl. left. Qed.

Lemma labels_in_concat (ts : list rtree) (x : Entity) :
  x ∈ map rlabel ts -> x ∈ concat (map preorder ts).
Proof.
  induction ts as [|u us IH]; simpl; [intros H; inversion H|].
  rewrite elem_of_cons, elem_of_app. intros [->|H]; [left; apply rlabel_in_preorder|].
  right. auto.
Qed.

Lemma nodup_labels (ts : list rtree) :
  NoDup (concat (map preorder ts)) -> NoDup (map rlabel ts).
Proof.
  induction ts as [|u us IH]; simpl; intros Hnd; [constructor|].
  apply NoDup_app in Hnd as [Hu [Hdis Hus]].
  constructor; [|auto].
  intros Hin. apply (Hdis (rlabel u)); [apply rlabel_in_preorder|].
  apply labels_in_concat. exact Hin.
Qed.

Lemma child_facts (t : EntityTree) (a : Entity) (ts : list rtree) (u : rtree) :
  u ∈ ts ->
  Forall (node_ok t) (subtrees (RNode a ts)) -> NoDup (preorder (RNode a ts)) ->
  Forall (node_ok t) (subtrees u) /\ NoDup (preorder u).
Proof.
  intros Hu Hok Hnd. simpl in Hok, Hnd.
  apply Forall_cons in Hok as [_ Hok]. apply NoDup_cons in Hnd as [_ Hnd].
  induction ts as [|v vs IH]; [inversion Hu|].
  simpl in Hok, Hnd. apply Forall_app in Hok as [Hv Hvs].
  apply NoDup_app in Hnd as [Hv' [_ Hvs']].
  apply elem_of_cons in Hu as [->|Hu]; [auto|]. apply IH; auto.
Qed.

Lemma height_child (a : Entity) (ts : list rtree) (u : rtree) :
  u ∈ ts -> S (height u) <= height (RNode a ts).
Proof.
  intros Hu. simpl.
  pose proof (proj1 (list_max_le (map (fun u => S (height u)) ts)
                       (list_max (map (fun u => S (height u)) ts))) (le_n _)) as HF.
  rewrite Forall_forall in HF. apply HF.
  apply list_elem_of_In, (in_map (fun u => S (height u))), list_elem_of_In. exact Hu.
Qed.

Lemma preorder_rest (u : rtree) : preorder u = rlabel u :: rest u.
Proof. destruct u. reflexivity. Qed.

Lemma parent_of_child (t : EntityTree) (a : Entity) (ts : list rtree) (u : rtree) :
  Forall (fun u => parent t !! rlabel u = Some (Some a)) ts -> u ∈ ts ->
  parent t !! rlabel u = Some (Some a).
Proof. intros H Hu. rewrite Forall_forall in H. auto. Qed.

(** Climbing from a child that has a next sibling finds that sibling. *)
Lemma climb_sibling (t : EntityTree) (a : Entity) (ts pre vs : list rtree)
  (u v : rtree) (g : nat) :
  children t !! a = Some (map rlabel ts) ->
  Forall (fun u => parent t !! rlabel u = Some (Some a)) ts ->
  NoDup (map rlabel ts) -> ts = pre ++ u :: v :: vs ->
  climb (S g) t (rlabel u) = ClimbFound (rlabel v).
Proof.
  intros Hch Hpar Hnd Hts. simpl.
  rewrite (parent_of_child t a ts u Hpar) by (rewrite Hts; set_solver).
  rewrite Hch.
  assert (Hl : map rlabel ts = map rlabel pre ++ rlabel u :: rlabel v :: map rlabel vs)
    by (rewrite Hts, map_app; reflexivity).
  rewrite (position_nodup (rlabel u) _ (length pre) Hnd)
    by (rewrite Hl; apply list_lookup_middle; rewrite length_map; reflexivity).
  rewrite Hl, decide_True by (rewrite length_app, length_map; simpl; lia).
  rewrite lookup_app_r by (rewrite length_map; lia).
  rewrite length_map. replace (length pre + 1 - length pre) with 1 by lia.
  reflexivity.
Qed.

(** Climbing from the last child continues from the parent. *)
Lemma climb_last_child (t : EntityTree) (a : Entity) (ts pre : list rtree)
  (u : rtree) (g : nat) :
  children t !! a = Some (map rlabel ts) ->
  Forall (fun u => parent t !! rlabel u = Some (Some a)) ts ->
  NoDup (map rlabel ts) -> ts = pre ++ [u] ->
  climb (S g) t (rlabel u) = climb g t a.
Proof.
  intros Hch Hpar Hnd Hts. simpl.
  rewrite (parent_of_child t a ts u Hpar) by (rewrite Hts; set_solver).
  rewrite Hch.
  assert (Hl : map rlabel ts = map rlabel pre ++ [rlabel u])
    by (rewrite Hts, map_app; reflexivity).
  rewrite (position_nodup (rlabel u) _ (length pre) Hnd)
    by (rewrite Hl; apply list_lookup_middle; rewrite length_map; reflexivity).
  rewrite Hl, decide_False by (rewrite length_app, length_map; simpl; lia).
  reflexivity.
Qed.

Lemma last_node_snoc (a : Entity) (pre : list rtree) (u : rtree) :
  last_node (RNode a (pre ++ [u])) = last_node u.
Proof.
  unfold last_node. simpl. rewrite map_app, concat_app, final_app. simpl.
  rewrite app_nil_r, preorder_rest. reflexivity.
Qed.

(** The walk through a well-formed subtree [S]: its last node in pre-order
    is a leaf, climbing from that leaf amounts to climbing from [S]'s root
    after at most [height S] loop iterations, and [next] visits the nodes
    of [S] in pre-order. *)
Lemma tree_walk (t : EntityTree) (S : rtree) :
  Forall (node_ok t) (subtrees S) -> NoDup (preorder S) ->
  children t !! last_node S = Some [] /\
  (exists k, k <= height S /\
     forall g, climb (g + k) t (last_node S) = climb g t (rlabel S)) /\
  (forall fuel, height S < fuel -> links fuel t (rlabel S) (rest S)).
Proof.
  induction S as [a ts IH] using rtree_ind'.
  intros Hok Hnd.
  pose proof Hok as Hok'. simpl in Hok'.
  apply Forall_cons in Hok' as [[Hch Hpar] _].
  assert (Hlabels : NoDup (map rlabel ts)).
  { simpl in Hnd. apply NoDup_cons in Hnd as [_ Hnd]. apply nodup_labels. exact Hnd. }
  assert (HIH : forall u, u ∈ ts ->
     children t !! last_node u = Some [] /\
     (exists k, k <= height u /\
        forall g, climb (g + k) t (last_node u) = climb g t (rlabel u)) /\
     (forall fuel, height u < fuel -> links fuel t (rlabel u) (rest u))).
  { intros u Hu. rewrite Forall_forall in IH.
    destruct (child_facts t a ts u Hu Hok Hnd). apply IH; auto. }
  destruct ts as [|t1 ts1] eqn:Ets.
  { split; [exact Hch|]. split; [exists 0; split; [lia|intros g; rewrite Nat.add_0_r; reflexivity]|].
    intros fuel _. exact I. }
  rewrite <- Ets in *.
  assert (Hne : ts <> []) by (rewrite Ets; discriminate).
  destruct (exists_last Hne) as [pre [u Hts]].
  assert (Hu : u ∈ ts) by (rewrite Hts; set_solver).
  destruct (HIH u Hu) as [Hleaf [[k [Hk Hclimb]] _]].
  split; [|split].
  - rewrite Hts, last_node_snoc. exact Hleaf.
  - exists (S k). split; [pose proof (height_child a ts u Hu); lia|].
    intros g. rewrite Hts, last_node_snoc, Nat.add_succ_r, <- Nat.add_succ_l, Hclimb.
    simpl rlabel. apply (climb_last_child t a ts pre u g Hch Hpar Hlabels Hts).
  - intros fuel Hfuel.
    assert (Hinner : forall us pre u, ts = pre ++ u :: us ->
              links fuel t (rlabel u) (rest u ++ concat (map preorder us))).
    { induction us as [|v vs IHus]; intros pre' u' Hts'.
      - assert (Hu' : u' ∈ ts) by (rewrite Hts'; set_solver).
        destruct (HIH u' Hu') as [_ [_ Hl]]. simpl. rewrite app_nil_r.
        apply Hl. pose proof (height_child a ts u' Hu'). lia.
      - assert (Hu' : u' ∈ ts) by (rewrite Hts'; set_solver).
        destruct (HIH u' Hu') as [Hleaf' [[k' [Hk' Hclimb']] Hl]].
        pose proof (height_child a ts u' Hu') as Hh.
        apply links_app. split; [apply Hl; lia|].
        simpl.
        rewrite (preorder_rest v). simpl. split.
        + fold (last_node u'). rewrite Hleaf'.
          replace fuel with (S (fuel - k' - 1) + k') by lia.
          rewrite Hclimb'.
          rewrite (climb_sibling t a ts pre' vs u' v _ Hch Hpar Hlabels Hts').
          reflexivity.
        + apply (IHus (pre' ++ [u'])). rewrite Hts', <- app_assoc. reflexivity. }
    rewrite Ets. simpl rest. simpl rlabel. simpl map. simpl concat.
    rewrite (preorder_rest t1). simpl. split.
    + rewrite Ets in Hch. rewrite Hch. reflexivity.
    + apply (Hinner ts1 [] t1). rewrite Ets. reflexivity.
Qed.

(** The walk over a whole well-formed tree, from a fresh iterator. *)
Lemma traversal_of_tree (t : EntityTree) (T : rtree) (fuel : nat) :
  is_tree_of t T -> height T < fuel ->
  collect fuel t into_iter_current (S (length (preorder T))) =
    Some (map Some (preorder T) ++ [None]).
Proof.
  intros [Hroot [Hpr [Hok Hnd]]] Hfuel.
  destruct (tree_walk t T Hok Hnd) as [Hleaf [[k [Hk Hclimb]] Hlinks]].
  unfold into_iter_current. rewrite collect_S. simpl next. rewrite Hroot.
  rewrite preorder_rest. simpl length.
  rewrite (collect_links fuel t (rlabel T) (rest T) (Hlinks fuel Hfuel)).
  - reflexivity.
  - fold (last_node T). simpl next. rewrite Hleaf.
    replace fuel with (S (fuel - k - 1) + k) by lia.
    rewrite Hclimb. simpl climb. rewrite Hpr. reflexivity.
Qed.

Lemma add_child_push (t : EntityTree) (p c : Entity) (ps : list Entity) :
  children t !! p = Some ps -> root t <> None ->
  add_child t p c = (Ok tt, pushed t p ps c).
Proof.
  intros Hp Hr. rewrite add_child_eqn, bool_decide_false by exact Hr.
  rewrite andb_false_r, Hp. reflexivity.
Qed.

(** ** C2 *)
(** C2: with root [R] inserted as a node, [C1] and [C2] added under [R] in
    this order and [C3] added under [C2] (all distinct, starting from any
    tree), a fresh iterator returns exactly [R, C1, C2, C3] and then [None];
    and in general, for every tree that is the rose tree [T] (root without
    parent, children sequences in insertion order, parent entries pointing
    back, no entity twice), a fresh iterator returns the pre-order of [T]
    (node, then each child's subtree in sequence order) and then [None].
    [fuel] bounds the iterations of the [while] loop of [next]; any bound
    above the height of the tree lets every loop finish. *)
Theorem traversal_preorder :
  (forall (t0 : EntityTree) (r c1 c2 c3 : Entity),
     NoDup [r; c1; c2; c3] ->
     let t1 := set_root (insert_node t0 r) r in
     let t2 := snd (add_child t1 r c1) in
     let t3 := snd (add_child t2 r c2) in
     let t4 := snd (add_child t3 c2 c3) in
     forall fuel, 2 < fuel ->
     collect fuel t4 into_iter_current 5 = Some [Some r; Some c1; Some c2; Some c3; None]) /\
  (forall (t : EntityTree) (T : rtree) (fuel : nat),
     is_tree_of t T -> height T < fuel ->
     collect fuel t into_iter_current (S (length (preorder T))) =
       Some (map Some (preorder T) ++ [None])).
Proof.
  split; [|exact traversal_of_tree].
  intros t0 r c1 c2 c3 Hnd t1 t2 t3 t4 fuel Hfuel.
  assert (Hrc1 : r <> c1) by (intros ->; apply NoDup_cons in Hnd; set_solver).
  assert (Hrc2 : r <> c2) by (intros ->; apply NoDup_cons in Hnd; set_solver).
  assert (Hrc3 : r <> c3) by (intros ->; apply NoDup_cons in Hnd; set_solver).
  apply NoDup_cons in Hnd as [_ Hnd].
  assert (H12 : c1 <> c2) by (intros ->; apply NoDup_cons in Hnd; set_solver).
  assert (H13 : c1 <> c3) by (intros ->; apply NoDup_cons in Hnd; set_solver).
  apply NoDup_cons in Hnd as [_ Hnd].
  assert (H23 : c2 <> c3) by (intros ->; apply NoDup_cons in Hnd; set_solver).
  assert (E2 : t2 = pushed t1 r [] c1).
  { unfold t2. rewrite (add_child_push t1 r c1 []); [reflexivity| |discriminate].
    simpl. apply lookup_insert_eq. }
  assert (E3 : t3 = pushed t2 r [c1] c2).
  { unfold t3. rewrite (add_child_push t2 r c2 [c1]); [reflexivity| |].
    - rewrite E2. simpl. rewrite lookup_insert_ne by congruence.
      apply lookup_insert_eq.
    - rewrite E2. discriminate. }
  assert (E4 : t4 = pushed t3 c2 [] c3).
  { unfold t4. rewrite (add_child_push t3 c2 c3 []); [reflexivity| |].
    - rewrite E3. apply lookup_insert_eq.
    - rewrite E3, E2. discriminate. }
  set (T := RNode r [RNode c1 []; RNode c2 [RNode c3 []]]).
  assert (HT : is_tree_of t4 T).
  { rewrite E4, E3, E2. unfold is_tree_of, T, pushed, t1. simpl.
    repeat split;
      repeat (constructor; simpl);
      repeat first [ rewrite lookup_insert_eq
                   | rewrite lookup_insert_ne by congruence ];
      try reflexivity; set_solver. }
  exact (traversal_of_tree t4 T fuel HT Hfuel).
Qed.

(* ------------------------------------------------------------------ *)
(** ** More of the tree operations *)

(** [insert_node e] gives [e] an empty children sequence and no parent (so
    [get_parent e] fails), keeps the root and every other entry, and makes
    [len] grow by one exactly when [e] had no children entry; inserting an
    existing node again empties its children sequence and drops its parent
    link, while the parent that listed it still lists it. *)
Theorem insert_node_spec (t : EntityTree) (e : Entity) :
  let t' := insert_node t e in
  get_children t' e = Ok [] /\
  get_parent t' e = Err (EntityNotFound e LocEntityTree) /\
  root t' = root t /\
  (forall k, k <> e ->
     children t' !! k = children t !! k /\ parent t' !! k = parent t !! k) /\
  len t' = match children t !! e with Some _ => len t | None => S (len t) end.
Proof.
  intros t'. unfold get_children, get_parent, len. simpl.
  rewrite !lookup_insert_eq. split; [reflexivity|]. split; [reflexivity|].
  split; [reflexivity|]. split.
  - intros k Hk. rewrite !lookup_insert_ne by congruence. auto.
  - rewrite map_size_insert. destruct (children t !! e); reflexivity.
Qed.

(** [remove e] drops both entries of [e] (so [get_children e] and
    [get_parent e] fail), keeps every other entry and the root (also when
    [e] is the root), and makes [len] shrink by one exactly when [e] had a
    children entry; it does not take [e] out of its parent's sequence. *)
Theorem remove_spec (t : EntityTree) (e : Entity) :
  let t' := remove t e in
  get_children t' e = Err (EntityNotFound e LocEntityTree) /\
  get_parent t' e = Err (EntityNotFound e LocEntityTree) /\
  root t' = root t /\
  (forall k, k <> e ->
     children t' !! k = children t !! k /\ parent t' !! k = parent t !! k) /\
  len t' = match children t !! e with Some _ => pred (len t) | None => len t end.
Proof.
  intros t'. unfold get_children, get_parent, len. simpl.
  rewrite !lookup_delete_eq. split; [reflexivity|]. split; [reflexivity|].
  split; [reflexivity|]. split.
  - intros k Hk. rewrite !lookup_delete_ne by congruence. auto.
  - rewrite map_size_delete. destruct (children t !! e); reflexivity.
Qed.

(** Removing the root leaves [root] pointing at it: a fresh iterator
    returns the removed root first and panics on the second call. *)
Theorem remove_root_panics (t : EntityTree) (r : Entity) (fuel : nat) :
  root t = Some r ->
  run_steps fuel (remove t r) into_iter_current 2 =
    [StepNext (Some r) (Some r); StepPanic PanicNotInTree].
Proof.
  intros Hr. unfold remove.
  cbn [run_steps next into_iter_current root children parent]. rewrite Hr.
  cbn [next children]. rewrite lookup_delete_eq. reflexivity.
Qed.

Lemma collect_stuck (fuel : nat) (t : EntityTree) (cur : option Entity) :
  next fuel t cur = StepNext None cur ->
  forall n, collect fuel t cur n = Some (replicate n None).
Proof.
  intros H n. induction n as [|n IH]; [reflexivity|].
  rewrite collect_S, H, IH. reflexivity.
Qed.

(** Once [next] has returned [None], every further call returns [None]
    again: the iterator neither restarts nor panics after its end. *)
Theorem next_after_end (fuel : nat) (t : EntityTree) (cur cur' : option Entity) :
  next fuel t cur = StepNext None cur' ->
  forall n, collect fuel t cur' n = Some (replicate n None).
Proof.
  intros H. apply collect_stuck.
  destruct cur as [c|]; simpl in H |- *.
  - destruct (children t !! c) as [[|f l]|] eqn:Hc; try discriminate.
    destruct (climb fuel t c) eqn:Hcl; inversion H; subst.
    cbn [next]. rewrite Hc, Hcl. reflexivity.
  - inversion H as [[H1 H2]]. rewrite H1. cbn [next]. rewrite H1. reflexivity.
Qed.

(** [EntityTree::new(none)] is the default tree, whose iterator returns
    only [None]; for any other entity [r], [EntityTree::new(r)] is the
    one-node tree [r] ([len] 1) whose iterator returns [r] and then
    [None]. *)
Theorem tree_new_spec (r : Entity) (fuel : nat) :
  (r = none -> tree_new r = tree_default /\
     forall n, collect fuel (tree_new r) into_iter_current n = Some (replicate n None)) /\
  (r <> none -> is_tree_of (tree_new r) (RNode r []) /\ len (tree_new r) = 1 /\
     (0 < fuel ->
        collect fuel (tree_new r) into_iter_current 2 = Some [Some r; None])).
Proof.
  split.
  - intros ->. split; [reflexivity|]. apply collect_stuck. reflexivity.
  - intros Hr.
    assert (Hs : is_some r = true).
    { unfold is_some. destruct (is_none r) eqn:E; [|reflexivity].
      apply is_none_true in E. contradiction. }
    assert (HT : is_tree_of (tree_new r) (RNode r [])).
    { unfold tree_new. rewrite Hs. unfold is_tree_of, set_root, insert_node, tree_default.
      cbn [root children parent subtrees preorder rlabel map concat].
      rewrite !lookup_insert_eq. split; [reflexivity|]. split; [reflexivity|].
      split.
      - constructor; [|constructor]. split; [apply lookup_insert_eq|constructor].
      - apply NoDup_singleton. }
    split; [exact HT|]. split.
    + unfold tree_new, len. rewrite Hs. simpl.
      rewrite map_size_insert, lookup_empty. reflexivity.
    + intros Hf. exact (traversal_of_tree (tree_new r) (RNode r []) fuel HT Hf).
Qed.

(* ------------------------------------------------------------------ *)
(** ** Growing a well-formed tree *)

Lemma elem_of_concat_map {A B} (f : A -> list B) (l : list A) (x : B) :
  x ∈ concat (map f l) <-> exists u, u ∈ l /\ x ∈ f u.
Proof.
  induction l as [|u us IH]; simpl.
  - split; [intros H; inversion H|intros [u [Hu _]]; inversion Hu].
  - rewrite elem_of_app, IH. split.
    + intros [H|[v [Hv H]]]; [exists u; split; [left|exact H]|].
      exists v. split; [right; exact Hv|exact H].
    + intros [v [Hv H]]. apply elem_of_cons in Hv as [->|Hv]; [left; exact H|].
      right. eauto.
Qed.

Lemma rlabel_rinsert (p c : Entity) (T : rtree) : rlabel (rinsert p c T) = rlabel T.
Proof. destruct T. reflexivity. Qed.

Lemma map_rlabel_rinsert (p c : Entity) (ts : list rtree) :
  map rlabel (map (rinsert p c) ts) = map rlabel ts.
Proof. rewrite map_map. apply map_ext. apply rlabel_rinsert. Qed.

(** Every node of a subtree is a node of the tree. *)
Lemma subtree_labels (T : rtree) :
  forall S, S ∈ subtrees T -> forall x, x ∈ preorder S -> x ∈ preorder T.
Proof.
  induction T as [a ts IH] using rtree_ind'. intros S HS x Hx.
  simpl in HS. apply elem_of_cons in HS as [->|HS]; [exact Hx|].
  apply elem_of_concat_map in HS as [u [Hu HS]].
  rewrite Forall_forall in IH. simpl. right.
  apply elem_of_concat_map. exists u. split; [exact Hu|]. exact (IH u Hu S HS x Hx).
Qed.

(** Every node of the tree labels one of its subtrees. *)
Lemma label_subtree (T : rtree) :
  forall x, x ∈ preorder T -> exists S, S ∈ subtrees T /\ rlabel S = x.
Proof.
  induction T as [a ts IH] using rtree_ind'. intros x Hx.
  simpl in Hx. apply elem_of_cons in Hx as [->|Hx].
  - exists (RNode a ts). split; [left|reflexivity].
  - apply elem_of_concat_map in Hx as [u [Hu Hx]].
    rewrite Forall_forall in IH. destruct (IH u Hu x Hx) as [S [HS HSx]].
    exists S. split; [|exact HSx]. simpl. right.
    apply elem_of_concat_map. eauto.
Qed.

Lemma subtrees_rinsert (p c : Entity) (T : rtree) :
  forall S', S' ∈ subtrees (rinsert p c T) ->
    S' = RNode c [] \/ exists S, S ∈ subtrees T /\ S' = rinsert p c S.
Proof.
  induction T as [a ts IH] using rtree_ind'. intros S' HS'.
  cbn [rinsert subtrees] in HS'. apply elem_of_cons in HS' as [->|HS'].
  - right. exists (RNode a ts). split; [left|reflexivity].
  - apply elem_of_concat_map in HS' as [w [Hw HS']].
    apply elem_of_app in Hw as [Hw|Hw].
    + apply list_elem_of_In, in_map_iff in Hw as [u [<- Hu]].
      apply list_elem_of_In in Hu.
      rewrite Forall_forall in IH. destruct (IH u Hu S' HS') as [H|[S [HS ->]]];
        [left; exact H|].
      right. exists S. split; [|reflexivity]. simpl. right.
      apply elem_of_concat_map. eauto.
    + destruct (decide (a = p)); [|inversion Hw].
      apply list_elem_of_singleton in Hw as ->. simpl in HS'.
      apply list_elem_of_singleton in HS'. left. exact HS'.
Qed.

Lemma height_rinsert (p c : Entity) (T : rtree) : height (rinsert p c T) <= S (height T).
Proof.
  induction T as [a ts IH] using rtree_ind'.
  cbn [rinsert height]. apply list_max_le, Forall_forall.
  intros n Hn. apply list_elem_of_In, in_map_iff in Hn as [w [<- Hw]].
  apply in_app_or in Hw as [Hw|Hw].
  - apply in_map_iff in Hw as [u [<- Hu]]. apply list_elem_of_In in Hu.
    rewrite Forall_forall in IH. pose proof (IH u Hu).
    pose proof (height_child a ts u Hu). simpl in *. lia.
  - destruct (decide (a = p)); [|inversion Hw].
    destruct Hw as [<-|[]]. simpl. lia.
Qed.

Lemma nodup_child (a : Entity) (ts : list rtree) (u : rtree) :
  u ∈ ts -> NoDup (preorder (RNode a ts)) -> NoDup (preorder u).
Proof.
  intros Hu Hnd. simpl in Hnd. apply NoDup_cons in Hnd as [_ Hnd].
  induction ts as [|v vs IH]; [inversion Hu|]. simpl in Hnd.
  apply NoDup_app in Hnd as [Hv [_ Hvs]].
  apply elem_of_cons in Hu as [->|Hu]; [exact Hv|exact (IH Hu Hvs)].
Qed.

(** With [p] occurring once in [T], [rinsert p c T] has the nodes of [T]
    and [c]; without [p] in [T] it is [T]. *)
Lemma preorder_rinsert (p c : Entity) (T : rtree) :
  NoDup (preorder T) ->
  (p ∈ preorder T -> preorder (rinsert p c T) ≡ₚ preorder T ++ [c]) /\
  (p ∉ preorder T -> rinsert p c T = T).
Proof.
  induction T as [a ts IH] using rtree_ind'. intros Hnd.
  rewrite Forall_forall in IH.
  assert (Hsame : forall us, (forall u, u ∈ us -> u ∈ ts) ->
            p ∉ concat (map preorder us) -> map (rinsert p c) us = us).
  { induction us as [|u us IHus]; intros Hsub Hp; [reflexivity|].
    simpl in Hp. rewrite elem_of_app in Hp.
    simpl. f_equal.
    - apply (IH u (Hsub u ltac:(left))); [|tauto].
      exact (nodup_child a ts u (Hsub u ltac:(left)) Hnd).
    - apply IHus; [intros v Hv; apply Hsub; right; exact Hv|tauto]. }
  cbn [rinsert preorder]. simpl in Hnd. apply NoDup_cons in Hnd as [Ha Hnd].
  split.
  - intros Hp. apply elem_of_cons in Hp as [<-|Hp].
    + rewrite decide_True by reflexivity.
      rewrite map_app, concat_app, (Hsame ts (fun u H => H) Ha). simpl.
      rewrite ?app_nil_r. reflexivity.
    + assert (Hap : a <> p) by (intros ->; contradiction).
      rewrite decide_False by exact Hap. rewrite app_nil_r.
      assert (Hgen : forall us, (forall u, u ∈ us -> u ∈ ts) ->
                NoDup (concat (map preorder us)) -> p ∈ concat (map preorder us) ->
                concat (map preorder (map (rinsert p c) us)) ≡ₚ
                  concat (map preorder us) ++ [c]).
      { induction us as [|u us IHus]; intros Hsub Hnd' Hp'; [inversion Hp'|].
        simpl in Hnd', Hp' |- *. apply NoDup_app in Hnd' as [Hu [Hdis Hus]].
        assert (Hut : u ∈ ts) by (apply Hsub; left).
        apply elem_of_app in Hp' as [Hpu|Hpus].
        - rewrite (proj1 (IH u Hut Hu) Hpu).
          rewrite (Hsame us (fun v Hv => Hsub v ltac:(right; exact Hv))
                     (fun H => Hdis p Hpu H)).
          rewrite <- app_assoc, <- app_assoc. apply Permutation_app_head.
          apply Permutation_app_comm.
        - assert (Hpu : p ∉ preorder u) by (intros H; exact (Hdis p H Hpus)).
          rewrite (proj2 (IH u Hut Hu) Hpu), <- app_assoc. apply Permutation_app_head.
          apply IHus; [intros v Hv; apply Hsub; right; exact Hv|exact Hus|exact Hpus]. }
      apply Permutation_cons; [reflexivity|exact (Hgen ts (fun u H => H) Hnd Hp)].
  - intros Hp. rewrite elem_of_cons in Hp.
    assert (Hap : a <> p) by (intros ->; apply Hp; left; reflexivity).
    rewrite decide_False by exact Hap. rewrite app_nil_r.
    rewrite (Hsame ts (fun u H => H)); [reflexivity|]. intros H. apply Hp. right. exact H.
Qed.

(** Adding a fresh entity [c] (one without a children entry) under a node
    [p] of a well-formed tree [T] succeeds and gives the well-formed tree
    [T] with [c] as the new last child of [p]; it has the nodes of [T] and
    [c], and a fresh iterator returns them in its pre-order and then
    [None]. *)
Theorem add_child_keeps_tree (t : EntityTree) (T : rtree) (p c : Entity) :
  is_tree_of t T -> p ∈ preorder T -> children t !! c = None ->
  let t' := snd (add_child t p c) in
  fst (add_child t p c) = Ok tt /\
  is_tree_of t' (rinsert p c T) /\
  preorder (rinsert p c T) ≡ₚ preorder T ++ [c] /\
  (forall fuel, S (height T) < fuel ->
     collect fuel t' into_iter_current (S (S (length (preorder T)))) =
       Some (map Some (preorder (rinsert p c T)) ++ [None])).
Proof.
  intros HT Hp Hc t'. pose proof HT as [Hroot [Hpr [Hok Hnd]]].
  assert (Hnodes : forall x, x ∈ preorder T -> is_Some (children t !! x)).
  { intros x Hx. destruct (label_subtree T x Hx) as [[a ts] [HS <-]].
    rewrite Forall_forall in Hok. destruct (Hok _ HS) as [Hch _]. simpl. eauto. }
  assert (Hcn : c ∉ preorder T).
  { intros H. destruct (Hnodes c H) as [l Hl]. congruence. }
  destruct (Hnodes p Hp) as [ps Hps].
  assert (Hadd : add_child t p c = (Ok tt, pushed t p ps c))
    by (apply add_child_push; [exact Hps|rewrite Hroot; discriminate]).
  unfold t'. rewrite Hadd. cbn [fst snd].
  pose proof (proj1 (preorder_rinsert p c T Hnd) Hp) as Hperm.
  assert (HT' : is_tree_of (pushed t p ps c) (rinsert p c T)).
  { split; [|split; [|split]].
    - simpl. rewrite rlabel_rinsert. exact Hroot.
    - simpl. rewrite rlabel_rinsert, lookup_insert_ne; [exact Hpr|].
      intros E. apply Hcn. rewrite E. apply rlabel_in_preorder.
    - apply Forall_forall. intros S' HS'.
      apply subtrees_rinsert in HS' as [->|[[a ts] [HS ->]]].
      + simpl. split; [apply lookup_insert_eq|constructor].
      + rewrite Forall_forall in Hok. destruct (Hok _ HS) as [Hch Hpar].
        assert (Hin : forall x, x ∈ preorder (RNode a ts) -> x <> c).
        { intros x Hx E. subst x. exact (Hcn (subtree_labels T _ HS c Hx)). }
        assert (Hac : a <> c) by (apply Hin; left).
        cbn [rinsert node_ok]. split.
        * unfold pushed. cbn [children]. rewrite lookup_insert_ne by congruence.
          rewrite map_app, map_rlabel_rinsert.
          destruct (decide (a = p)) as [->|Hne].
          -- rewrite lookup_insert_eq. rewrite Hps in Hch. inversion Hch. reflexivity.
          -- rewrite lookup_insert_ne by congruence. rewrite Hch, app_nil_r. reflexivity.
        * apply Forall_app. split.
          -- apply Forall_map, Forall_forall. intros v Hv.
             rewrite rlabel_rinsert. unfold pushed. cbn [parent].
             rewrite lookup_insert_ne.
             ++ rewrite Forall_forall in Hpar. exact (Hpar v Hv).
             ++ intros E. apply (Hin (rlabel v)); [|symmetry; exact E].
                simpl. right. apply labels_in_concat.
                apply list_elem_of_In, in_map, list_elem_of_In. exact Hv.
          -- destruct (decide (a = p)) as [->|]; [|constructor].
             constructor; [|constructor]. simpl. apply lookup_insert_eq.
    - rewrite Hperm. apply NoDup_app. split; [exact Hnd|]. split.
      + intros x Hx Hx'. apply list_elem_of_singleton in Hx'. subst x. contradiction.
      + apply NoDup_singleton. }
  split; [reflexivity|]. split; [exact HT'|]. split; [exact Hperm|].
  intros fuel Hfuel.
  assert (Hlen : length (preorder (rinsert p c T)) = S (length (preorder T)))
    by (rewrite Hperm, length_app; simpl; lia).
  rewrite <- Hlen. apply traversal_of_tree; [exact HT'|].
  pose proof (height_rinsert p c T). lia.
Qed.

(* ------------------------------------------------------------------ *)
(** ** Display of entities *)

Lemma string_length_app (s1 s2 : string) :
  String.length (s1 +:+ s2) = String.length s1 + String.length s2.
Proof. induction s1 as [|a s1 IH]; simpl; [reflexivity|]. rewrite IH. reflexivity. Qed.

Lemma string_app_cancel_r (s1 s2 s : string) : s1 +:+ s = s2 +:+ s -> s1 = s2.
Proof.
  revert s2. induction s1 as [|a s1 IH]; intros s2 H; destruct s2 as [|b s2]; simpl in H.
  - reflexivity.
  - apply (f_equal String.length) in H.
    rewrite ?string_length_app in H. simpl in H. rewrite ?string_length_app in H. lia.
  - apply (f_equal String.length) in H.
    rewrite ?string_length_app in H. simpl in H. rewrite ?string_length_app in H. lia.
  - inversion H; subst. f_equal. apply IH. assumption.
Qed.

(** Different entities are displayed differently: the panic message of
    the iterator names exactly one entity. *)
Theorem entity_display_inj (e1 e2 : Entity) :
  entity_display e1 = entity_display e2 -> e1 = e2.
Proof.
  unfold entity_display. intros H.
  apply (inj (String.append "Entity(")) in H.
  apply string_app_cancel_r in H. apply (inj pretty) in H.
  destruct e1, e2. simpl in H. subst. reflexivity.
Qed.

(* ------------------------------------------------------------------ *)
(** ** More of the component manager *)

Section ManagerMoreProofs.
Context {Ty : Type} `{EqDecision Ty} (El : Ty -> Type) (type_name : Ty -> string).

Lemma downcast_mut_ref (T : Ty) (b : AnyBox El) :
  downcast_mut El T b = (fun v => (v, fun v' => existT T v')) <$> downcast_ref El T b.
Proof. unfold downcast_mut, downcast_ref. destruct (decide (projT1 b = T)); reflexivity. Qed.

Lemma downcast_ref_some (T : Ty) (b : AnyBox El) (v : El T) :
  downcast_ref El T b = Some v -> b = existT T v.
Proof.
  destruct b as [U w]. unfold downcast_ref. simpl.
  destruct (decide (U = T)) as [E|]; [|discriminate].
  intros H. injection H as <-. destruct E. reflexivity.
Qed.

Lemma downcast_ref_is (T : Ty) (b : AnyBox El) :
  is_Some (downcast_ref El T b) <-> is_ El T b = true.
Proof.
  unfold downcast_ref, is_. rewrite bool_decide_eq_true.
  destruct (decide (projT1 b = T)); split; intros H; try done; eauto.
Qed.

Lemma existT_inj (T : Ty) (v w : El T) : existT T v = existT T w -> v = w.
Proof.
  apply Eqdep_dec.inj_pair2_eq_dec.
  intros x y. destruct (decide (x = y)); [left|right]; assumption.
Qed.

(** What [get_component::<U>(e')] sees after the entry under [key] is
    replaced by a box of type [T], when the old entry under [key], if any,
    also had type [T]. *)
Lemma get_component_after_set (m : EntityComponentManager El) (T U : Ty) (e e' : Entity)
  (b : AnyBox El) (store' : gmap (Entity * string) (AnyBox El)) :
  store' = <[(e, type_name T) := b]> (component_store El m) ->
  projT1 b = T ->
  (forall b0, component_store El m !! (e, type_name T) = Some b0 -> projT1 b0 = T) ->
  U <> T \/ e' <> e ->
  store' !! (e', type_name U) ≫= downcast_ref El U =
    get_component El type_name U m e'.
Proof.
  intros -> Hb Hold Hne. unfold get_component.
  destruct (decide ((e', type_name U) = (e, type_name T))) as [Hk|Hk].
  - inversion Hk as [[He Hn]]. subst e'. destruct Hne as [Hne|Hne]; [|congruence].
    rewrite Hk, lookup_insert_eq. simpl.
    destruct b as [V w]. simpl in Hb. subst V. rewrite downcast_ref_other by congruence.
    destruct (component_store El m !! (e, type_name T)) as [[V w0]|] eqn:Hs;
      [|reflexivity].
    simpl. specialize (Hold _ eq_refl). simpl in Hold. subst V.
    rewrite downcast_ref_other by congruence. reflexivity.
  - rewrite lookup_insert_ne by congruence. reflexivity.
Qed.

(** [get_component_mut::<T>(e)] finds a component exactly when
    [get_component::<T>(e)] does, and then returns the same value; writing
    [v'] through the returned reference makes [get_component::<T>(e)]
    return [v'], leaves every other (type, entity) lookup as it was, and
    changes neither the tree nor the entity counter. *)
Theorem get_component_mut_spec (T : Ty) (m : EntityComponentManager El) (e : Entity) :
  (get_component_mut El type_name T m e = None <->
     get_component El type_name T m e = None) /\
  (forall v set, get_component_mut El type_name T m e = Some (v, set) ->
     get_component El type_name T m e = Some v /\
     forall v', let m' := set v' in
       get_component El type_name T m' e = Some v' /\
       (forall U e', U <> T \/ e' <> e ->
          get_component El type_name U m' e' = get_component El type_name U m e') /\
       entites El m' = entites El m /\ entity_counter El m' = entity_counter El m).
Proof.
  unfold get_component_mut. split.
  - unfold get_component.
    destruct (component_store El m !! (e, type_name T)) as [b|]; simpl; [|tauto].
    rewrite downcast_mut_ref. destruct (downcast_ref El T b); simpl; split; congruence.
  - intros v set Hm.
    destruct (component_store El m !! (e, type_name T)) as [b|] eqn:Hb; [|discriminate].
    rewrite downcast_mut_ref in Hm.
    destruct (downcast_ref El T b) as [w|] eqn:Hd; simpl in Hm; [|discriminate].
    inversion Hm; subst w set. clear Hm.
    pose proof (downcast_ref_some T b v Hd) as ->.
    split; [unfold get_component; rewrite Hb; exact Hd|].
    intros v'. split; [|split; [|split; reflexivity]].
    + unfold get_component. simpl. rewrite lookup_insert_eq. simpl.
      apply downcast_ref_same.
    + intros U e' Hne.
      apply (get_component_after_set m T U e e' (existT T v')); try reflexivity.
      * intros b0 Hb0. pose proof (eq_trans (eq_sym Hb0) Hb) as E.
        inversion E. reflexivity.
      * exact Hne.
Qed.

(** After [remove_component::<T>(e)], no type whose name equals
    [type_name::<T>()] has a component for [e] (so [get_component::<T>(e)]
    is [None]); every lookup under another (entity, type name) key is
    unchanged, and so are the tree and the entity counter. *)
Theorem remove_component_spec (T : Ty) (m : EntityComponentManager El) (e : Entity) :
  let m' := remove_component El type_name T m e in
  get_component El type_name T m' e = None /\
  (forall U, type_name U = type_name T -> get_component El type_name U m' e = None) /\
  (forall U e', (e', type_name U) <> (e, type_name T) ->
     get_component El type_name U m' e' = get_component El type_name U m e') /\
  entites El m' = entites El m /\ entity_counter El m' = entity_counter El m.
Proof.
  intros m'.
  assert (Hsame : forall U, type_name U = type_name T ->
            get_component El type_name U m' e = None).
  { intros U HU. unfold get_component. simpl. rewrite HU, lookup_delete_eq. reflexivity. }
  split; [apply Hsame; reflexivity|]. split; [exact Hsame|].
  split; [|split; reflexivity].
  intros U e' Hne. unfold get_component. simpl.
  rewrite lookup_delete_ne by congruence. reflexivity.
Qed.

(** [insert_component::<T>(e, v)] changes no lookup under another (entity,
    type name) key, and leaves the tree and the entity counter as they
    were: it does not register [e] as an entity. *)
Theorem insert_component_frame (T : Ty) (m : EntityComponentManager El) (e : Entity)
  (v : El T) :
  let m' := insert_component El type_name T m e v in
  (forall U e', (e', type_name U) <> (e, type_name T) ->
     get_component El type_name U m' e' = get_component El type_name U m e') /\
  entites El m' = entites El m /\ entity_counter El m' = entity_counter El m.
Proof.
  intros m'. split; [|split; reflexivity].
  intros U e' Hne. unfold get_component. simpl.
  rewrite lookup_insert_ne by congruence. reflexivity.
Qed.

Lemma mapM_members {A B} (f : A -> option B) (xs : list A) (l : list B) :
  mapM f xs = Some l ->
  (forall y, y ∈ l <-> exists x, x ∈ xs /\ f x = Some y) /\ length l = length xs.
Proof.
  intros H. apply mapM_Some in H. induction H as [|x y xs l Hxy _ IH]; simpl.
  - split; [|reflexivity]. intros y. split; [intros Hy; inversion Hy|].
    intros [x [Hx _]]. inversion Hx.
  - destruct IH as [IH Hlen]. split; [|rewrite Hlen; reflexivity].
    intros z. rewrite elem_of_cons, IH. split.
    + intros [->|[x' [Hx' Hf]]]; [exists x; split; [left|exact Hxy]|].
      exists x'. split; [right; exact Hx'|exact Hf].
    + intros [x' [Hx' Hf]]. apply elem_of_cons in Hx' as [->|Hx'].
      * left. congruence.
      * right. eauto.
Qed.

Lemma queury_component_some (T : Ty) (m : EntityComponentManager El) :
  exists l, queury_component El T m = Some l /\
    (forall e v, (e, v) ∈ l <->
       exists n, component_store El m !! (e, n) = Some (existT T v)) /\
    length l =
      length (filter (fun kv : (Entity * string) * AnyBox El => is_ El T kv.2 = true)
                     (map_to_list (component_store El m))).
Proof.
  unfold queury_component.
  set (xs := filter _ (map_to_list (component_store El m))).
  set (f := fun kv : (Entity * string) * AnyBox El =>
              v ← downcast_ref El T kv.2; Some (kv.1.1, v)).
  destruct (mapM_is_Some_2 f xs) as [l Hl].
  { apply Forall_forall. intros [k b] Hx. unfold xs in Hx.
    apply list_elem_of_filter in Hx as [Hi _]. simpl in Hi.
    apply downcast_ref_is in Hi as [w Hw]. unfold f. simpl. rewrite Hw. simpl. eauto. }
  exists l. split; [exact Hl|].
  destruct (mapM_members f xs l Hl) as [Hmem Hlen]. split; [|exact Hlen].
  intros e v. rewrite Hmem. split.
  - intros [[[e' n] b] [Hx Hf]]. unfold f in Hf. simpl in Hf.
    destruct (downcast_ref El T b) as [w|] eqn:Hw; simpl in Hf; [|discriminate].
    inversion Hf; subst e' w. apply downcast_ref_some in Hw as ->.
    unfold xs in Hx. apply list_elem_of_filter in Hx as [_ Hx].
    apply elem_of_map_to_list in Hx. eauto.
  - intros [n Hn]. exists ((e, n), existT T v). split.
    + unfold xs. apply list_elem_of_filter. split.
      * unfold is_. simpl. apply bool_decide_eq_true. reflexivity.
      * apply elem_of_map_to_list. exact Hn.
    + unfold f. simpl. rewrite downcast_ref_same. reflexivity.
Qed.

(** [queury_component::<T>()] never reaches the panic of its [unwrap]; it
    returns one pair per store entry whose box holds a [T] (whatever name
    that entry is stored under), and [(e, v)] is among them exactly when
    such an entry holds [v] for [e]. *)
Theorem queury_component_spec (T : Ty) (m : EntityComponentManager El) :
  exists l, queury_component El T m = Some l /\
    (forall e v, (e, v) ∈ l <->
       exists n, component_store El m !! (e, n) = Some (existT T v)) /\
    length l =
      size (filter (fun kv : (Entity * string) * AnyBox El => projT1 kv.2 = T)
                   (component_store El m)).
Proof.
  destruct (queury_component_some T m) as [l [Hl [Hmem Hlen]]].
  exists l. split; [exact Hl|]. split; [exact Hmem|]. rewrite Hlen.
  rewrite map_filter_alt, <- length_map_to_list.
  rewrite map_to_list_to_map.
  - rewrite (list_filter_iff _ (fun kv : (Entity * string) * AnyBox El => projT1 kv.2 = T));
      [reflexivity|].
    intros kv. unfold is_. apply bool_decide_eq_true.
  - apply (sublist_NoDup _ ((map_to_list (component_store El m)).*1));
      [apply NoDup_fst_map_to_list|].
    apply fmap_sublist, sublist_filter.
Qed.

(** *** Histories of manager calls *)

Lemma run_mops_cons (m : EntityComponentManager El) (op : ManagerOp El)
  (ops : list (ManagerOp El)) :
  run_mops El type_name m (op :: ops) =
    ((step_mop El type_name m op).1 ++
       (run_mops El type_name (step_mop El type_name m op).2 ops).1,
     (run_mops El type_name (step_mop El type_name m op).2 ops).2).
Proof.
  simpl. destruct (step_mop El type_name m op) as [out m1]. simpl.
  destruct (run_mops El type_name m1 ops). reflexivity.
Qed.

Lemma run_mops_invariant (P : EntityComponentManager El -> Prop) :
  (forall m op, P m -> P (step_mop El type_name m op).2) ->
  forall ops m, P m -> P (run_mops El type_name m ops).2.
Proof.
  intros Hstep ops. induction ops as [|op ops IH]; intros m Hm; [exact Hm|].
  rewrite run_mops_cons. apply IH, Hstep, Hm.
Qed.

(** The effect of one call on the store, the tree and the counter. *)
Lemma step_mop_cases (m : EntityComponentManager El) (op : ManagerOp El) :
  let r := step_mop El type_name m op in
  (op = MCreate El /\
     r.1 = [Ent (u64_add (ent_val (entity_counter El m)) 1)] /\
     entity_counter El r.2 = Ent (u64_add (ent_val (entity_counter El m)) 1) /\
     entites El r.2 = insert_node (entites El m) (Ent (u64_add (ent_val (entity_counter El m)) 1)) /\
     component_store El r.2 = component_store El m) \/
  (op <> MCreate El /\ r.1 = [] /\ entity_counter El r.2 = entity_counter El m /\
   ((exists e, entites El r.2 = remove (entites El m) e /\
      component_store El r.2 =
        filter (fun kv : (Entity * string) * AnyBox El => kv.1.1 <> e) (component_store El m)) \/
    (entites El r.2 = entites El m /\
     ((exists T e v, component_store El r.2 =
         <[(e, type_name T) := existT T v]> (component_store El m)) \/
      (exists k, component_store El r.2 = delete k (component_store El m)) \/
      component_store El r.2 = component_store El m)))).
Proof.
  intros r. unfold r. destruct op as [|e|T e v|T e|T e v]; simpl.
  - left. auto.
  - right. split; [discriminate|]. split; [reflexivity|]. split; [reflexivity|].
    left. eauto.
  - right. split; [discriminate|]. split; [reflexivity|]. split; [reflexivity|].
    right. split; [reflexivity|]. left. eauto.
  - right. split; [discriminate|]. split; [reflexivity|]. split; [reflexivity|].
    right. split; [reflexivity|]. right. left. eauto.
  - right. split; [discriminate|]. split; [reflexivity|].
    unfold get_component_mut.
    destruct (component_store El m !! (e, type_name T)) as [b|]; simpl;
      [|split; [reflexivity|right; split; [reflexivity|right; right; reflexivity]]].
    rewrite downcast_mut_ref. destruct (downcast_ref El T b); simpl;
      [|split; [reflexivity|right; split; [reflexivity|right; right; reflexivity]]].
    split; [reflexivity|]. right. split; [reflexivity|]. left. eauto.
Qed.

(** The tree of a manager only ever gets plain nodes, and every store
    entry sits under the name of its box's type. *)
Lemma manager_step_inv (m : EntityComponentManager El) (op : ManagerOp El) :
  let t := entites El m in
  root t = None /\ (forall k l, children t !! k = Some l -> l = []) /\
  (forall k o, parent t !! k = Some o -> o = None) /\ store_wf El type_name m ->
  let t' := entites El (step_mop El type_name m op).2 in
  root t' = None /\ (forall k l, children t' !! k = Some l -> l = []) /\
  (forall k o, parent t' !! k = Some o -> o = None) /\
  store_wf El type_name (step_mop El type_name m op).2.
Proof.
  intros t [Hr [Hc [Hp Hw]]] t'. unfold t' in *.
  destruct (step_mop_cases m op) as
    [[_ [_ [_ [Ht Hs]]]]|[_ [_ [_ [[e [Ht Hs]]|[Ht Hs]]]]]];
    rewrite Ht; unfold t in *.
  - simpl. split; [exact Hr|]. split; [|split].
    + intros k l Hk. destruct (decide (k = Ent (u64_add (ent_val (entity_counter El m)) 1)))
        as [->|Hne]; [rewrite lookup_insert_eq in Hk; congruence|].
      rewrite lookup_insert_ne in Hk by congruence. eauto.
    + intros k o Hk. destruct (decide (k = Ent (u64_add (ent_val (entity_counter El m)) 1)))
        as [->|Hne]; [rewrite lookup_insert_eq in Hk; congruence|].
      rewrite lookup_insert_ne in Hk by congruence. eauto.
    + intros e n b Hb. rewrite Hs in Hb. eauto.
  - simpl. split; [exact Hr|]. split; [|split].
    + intros k l Hk. destruct (decide (k = e)) as [->|Hne];
        [rewrite lookup_delete_eq in Hk; discriminate|].
      rewrite lookup_delete_ne in Hk by congruence. eauto.
    + intros k o Hk. destruct (decide (k = e)) as [->|Hne];
        [rewrite lookup_delete_eq in Hk; discriminate|].
      rewrite lookup_delete_ne in Hk by congruence. eauto.
    + intros e' n b Hb. rewrite Hs in Hb.
      apply map_lookup_filter_Some in Hb as [Hb _]. eauto.
  - split; [exact Hr|]. split; [exact Hc|]. split; [exact Hp|].
    intros e n b Hb.
    destruct Hs as [[T [e0 [v Hs]]]|[[k Hs]|Hs]]; rewrite Hs in Hb.
    + destruct (decide ((e, n) = (e0, type_name T))) as [Hk|Hk].
      * rewrite Hk, lookup_insert_eq in Hb. inversion Hk. inversion Hb. reflexivity.
      * rewrite lookup_insert_ne in Hb by congruence. eauto.
    + destruct (decide ((e, n) = k)) as [<-|Hk];
        [rewrite lookup_delete_eq in Hb; discriminate|].
      rewrite lookup_delete_ne in Hb by congruence. eauto.
    + eauto.
Qed.

Lemma manager_history_inv (ops : list (ManagerOp El)) :
  let m := (run_mops El type_name (manager_default El) ops).2 in
  let t := entites El m in
  root t = None /\ (forall k l, children t !! k = Some l -> l = []) /\
  (forall k o, parent t !! k = Some o -> o = None) /\ store_wf El type_name m.
Proof.
  apply (run_mops_invariant (fun m =>
    let t := entites El m in
    root t = None /\ (forall k l, children t !! k = Some l -> l = []) /\
    (forall k o, parent t !! k = Some o -> o = None) /\ store_wf El type_name m)).
  - intros m op H. exact (manager_step_inv m op H).
  - simpl. split; [reflexivity|]. split; [|split].
    + intros k l Hk. rewrite lookup_empty in Hk. discriminate.
    + intros k o Hk. rewrite lookup_empty in Hk. discriminate.
    + intros e n b Hb. unfold manager_default in Hb. cbn [component_store] in Hb.
      rewrite lookup_empty in Hb. discriminate.
Qed.

(** The tree of a manager, after any history of calls from
    [EntityComponentManager::default()], has no root and no parent links:
    every children sequence is empty, every parent entry is [None], both
    mappings have the same keys, [get_parent] fails for every entity, and
    iterating the tree yields nothing. *)
Theorem manager_tree_flat (ops : list (ManagerOp El)) :
  let t := entites El (run_mops El type_name (manager_default El) ops).2 in
  root t = None /\
  (forall k l, children t !! k = Some l -> l = []) /\
  (forall k o, parent t !! k = Some o -> o = None) /\
  dom (children t) = dom (parent t) /\
  (forall e, get_parent t e = Err (EntityNotFound e LocEntityTree)) /\
  (forall fuel n, collect fuel t into_iter_current n = Some (replicate n None)).
Proof.
  intros t. destruct (manager_history_inv ops) as [Hr [Hc [Hp _]]]. fold t in Hr, Hc, Hp.
  split; [exact Hr|]. split; [exact Hc|]. split; [exact Hp|]. split.
  - apply (run_mops_invariant (fun m => tree_inv (entites El m))); [|reflexivity].
    intros m op Hm.
    destruct (step_mop_cases m op) as
      [[_ [_ [_ [Ht _]]]]|[_ [_ [_ [[e [Ht _]]|[Ht _]]]]]]; rewrite Ht.
    + apply (proj1 (proj2 (proj2 tree_inv_preserved) _ Hm)).
    + apply (proj2 (proj2 (proj2 (proj2 (proj2 tree_inv_preserved) _ Hm)))).
    + exact Hm.
  - split.
    + intros e. unfold get_parent.
      destruct (parent t !! e) as [o|] eqn:He; [|reflexivity].
      rewrite (Hp e o He). reflexivity.
    + intros fuel n. apply collect_stuck. simpl. rewrite Hr. reflexivity.
Qed.

Lemma mapM_fmap_eq {A B C} (f : A -> option B) (g : B -> C) (h : A -> C)
  (xs : list A) (l : list B) :
  (forall x y, f x = Some y -> g y = h x) ->
  mapM f xs = Some l -> g <$> l = h <$> xs.
Proof.
  intros Hgh H. apply mapM_Some in H.
  induction H as [|x y xs l Hxy _ IH]; [reflexivity|].
  rewrite !fmap_cons, IH, (Hgh x y Hxy). reflexivity.
Qed.

(** After any history of calls from [EntityComponentManager::default()],
    [queury_component::<T>()] returns exactly the pairs [(e, v)] for
    which [get_component::<T>(e)] is [Some v], each entity at most once. *)
Theorem queury_component_history (T : Ty) (ops : list (ManagerOp El)) :
  let m := (run_mops El type_name (manager_default El) ops).2 in
  exists l, queury_component El T m = Some l /\
    (forall e v, (e, v) ∈ l <-> get_component El type_name T m e = Some v) /\
    NoDup l.*1.
Proof.
  intros m. destruct (manager_history_inv ops) as [_ [_ [_ Hw]]]. fold m in Hw.
  destruct (queury_component_some T m) as [l [Hl [Hmem _]]].
  exists l. split; [exact Hl|]. split.
  - intros e v. rewrite Hmem. unfold get_component. split.
    + intros [n Hn]. pose proof (Hw e n _ Hn) as Hname. simpl in Hname. subst n.
      unfold AnyBox in *. rewrite Hn. simpl. apply downcast_ref_same.
    + destruct (component_store El m !! (e, type_name T)) as [b|] eqn:Hb;
        simpl; [|discriminate].
      intros Hd. apply downcast_ref_some in Hd. subst b. eauto.
  - unfold queury_component in Hl.
    assert (Hgh : forall (x : (Entity * string) * AnyBox El) (y : Entity * El T),
              (v ← downcast_ref El T x.2; Some (x.1.1, v)) = Some y -> y.1 = x.1.1).
    { intros [[e n] b] [e' v] H. simpl in H.
      destruct (downcast_ref El T b); simpl in H; [|discriminate].
      inversion H. reflexivity. }
    rewrite (mapM_fmap_eq _ fst (fun kv : (Entity * string) * AnyBox El => kv.1.1) _ _
               Hgh Hl).
    apply NoDup_fmap_2_strong.
    + intros [[e1 n1] b1] [[e2 n2] b2] H1 H2 He. simpl in He. subst e2.
      apply list_elem_of_filter in H1 as [Hi1 H1].
      apply list_elem_of_filter in H2 as [Hi2 H2].
      apply elem_of_map_to_list in H1. apply elem_of_map_to_list in H2.
      unfold is_ in Hi1, Hi2. simpl in Hi1, Hi2.
      apply bool_decide_eq_true in Hi1. apply bool_decide_eq_true in Hi2.
      pose proof (Hw _ _ _ H1) as E1. pose proof (Hw _ _ _ H2) as E2.
      rewrite Hi1 in E1. rewrite Hi2 in E2. subst n1 n2.
      rewrite H1 in H2. inversion H2. reflexivity.
    + apply NoDup_filter, NoDup_map_to_list.
Qed.

Lemma run_mops_ids_gen (ops : list (ManagerOp El)) (m : EntityComponentManager El) :
  (ent_val (entity_counter El m) + N.of_nat (creates El ops) < 2 ^ 64)%N ->
  (run_mops El type_name m ops).1 =
    map (fun i => Ent (ent_val (entity_counter El m) + N.of_nat i)) (seq 1 (creates El ops)) /\
  entity_counter El (run_mops El type_name m ops).2 =
    Ent (ent_val (entity_counter El m) + N.of_nat (creates El ops)).
Proof.
  revert m. induction ops as [|op ops IH]; intros m Hb.
  - simpl. rewrite N.add_0_r. destruct (entity_counter El m). auto.
  - rewrite run_mops_cons.
    destruct (step_mop_cases m op) as [[Hop [Ho [Hc _]]]|[Hop [Ho [Hc _]]]].
    + subst op. simpl creates in *.
      set (k := ent_val (entity_counter El m)) in *.
      assert (Hk : u64_add k 1 = (k + 1)%N) by (unfold u64_add; apply N.mod_small; lia).
      destruct (IH (step_mop El type_name m (MCreate El)).2) as [Hids Hcnt];
        [rewrite Hc; simpl; rewrite Hk; lia|].
      rewrite Hc in Hids, Hcnt. cbn [ent_val] in Hids, Hcnt. rewrite Hk in Hids, Hcnt.
      cbn [fst snd]. rewrite Ho, Hids, Hcnt. simpl. split.
      * change (N.of_nat 1) with 1%N. f_equal; [rewrite Hk; reflexivity|].
        rewrite <- (seq_shift (creates El ops) 1), map_map. apply map_ext.
        intros i. f_equal. lia.
      * f_equal. lia.
    + assert (Hcr : creates El (op :: ops) = creates El ops)
        by (destruct op; [congruence|reflexivity..]).
      rewrite Hcr in *.
      destruct (IH (step_mop El type_name m op).2) as [Hids Hcnt]; [rewrite Hc; exact Hb|].
      rewrite Hc in Hids, Hcnt. cbn [fst snd]. rewrite Ho, Hids, Hcnt. auto.
Qed.

(** Over any history of calls from [EntityComponentManager::default()]
    with fewer than 2^64 calls of [create_entity], those calls return
    [1, 2, ..., n] in order, however [delete_entity] and the component
    calls are interleaved: an id is never handed out twice, not even after
    its entity was deleted, and the sentinel [none] is never returned. *)
Theorem created_ids_history (ops : list (ManagerOp El)) :
  (N.of_nat (creates El ops) < 2 ^ 64)%N ->
  let es := (run_mops El type_name (manager_default El) ops).1 in
  es = map (fun i => Ent (N.of_nat i)) (seq 1 (creates El ops)) /\
  NoDup es /\ none ∉ es.
Proof.
  intros Hn es.
  destruct (run_mops_ids_gen ops (manager_default El)) as [Hids _]; [simpl; lia|].
  assert (Hes : es = map (fun i => Ent (N.of_nat i)) (seq 1 (creates El ops))).
  { unfold es. rewrite Hids. apply map_ext. intros i. reflexivity. }
  split; [exact Hes|]. split.
  - rewrite Hes. apply NoDup_fmap_2; [|apply NoDup_seq].
    intros i j H. inversion H. lia.
  - rewrite Hes. intros Hin. apply list_elem_of_fmap in Hin as [i [Hi Hin]].
    apply elem_of_seq in Hin. unfold none in Hi. inversion Hi. lia.
Qed.

Lemma run_mops_bound (ops : list (ManagerOp El)) (m : EntityComponentManager El) :
  (ent_val (entity_counter El m) + N.of_nat (creates El ops) < 2 ^ 64)%N ->
  (forall k, is_Some (children (entites El m) !! k) ->
     (0 < ent_val k <= ent_val (entity_counter El m))%N) ->
  forall k, is_Some (children (entites El (run_mops El type_name m ops).2) !! k) ->
    (0 < ent_val k <= ent_val (entity_counter El (run_mops El type_name m ops).2))%N.
Proof.
  revert m. induction ops as [|op ops IH]; intros m Hb Hk; [exact Hk|].
  rewrite run_mops_cons. simpl snd. apply IH.
  - destruct (step_mop_cases m op) as [[Hop [_ [Hc _]]]|[Hop [_ [Hc _]]]].
    + subst op. simpl creates in Hb. rewrite Hc. simpl.
      unfold u64_add. rewrite N.mod_small by lia. lia.
    + assert (Hcr : creates El (op :: ops) = creates El ops)
        by (destruct op; [congruence|reflexivity..]).
      rewrite Hcr in Hb. rewrite Hc. exact Hb.
  - intros k' Hk'.
    destruct (step_mop_cases m op) as
      [[Hop [_ [Hc [Ht _]]]]|[Hop [_ [Hc [[e [Ht _]]|[Ht _]]]]]];
      rewrite Hc; rewrite Ht in Hk'.
    + subst op. simpl creates in Hb. simpl in Hk'. simpl ent_val.
      assert (Hm : u64_add (ent_val (entity_counter El m)) 1 =
                   (ent_val (entity_counter El m) + 1)%N)
        by (unfold u64_add; apply N.mod_small; lia).
      rewrite Hm in Hk' |- *.
      destruct (decide (k' = Ent (ent_val (entity_counter El m) + 1))) as [->|Hne];
        [simpl; lia|].
      rewrite lookup_insert_ne in Hk' by congruence.
      pose proof (Hk k' Hk'). lia.
    + simpl in Hk'. destruct (decide (k' = e)) as [->|Hne].
      * rewrite lookup_delete_eq in Hk'. destruct Hk' as [? H]. discriminate.
      * rewrite lookup_delete_ne in Hk' by congruence. apply Hk. exact Hk'.
    + apply Hk. exact Hk'.
Qed.

(** After any history of calls from [EntityComponentManager::default()]
    (with the counter below its 64-bit limit), the id [create_entity]
    returns is not yet a node, so it grows [entites.len()] by one; deleting
    that entity again brings [len] back to its value before the call. *)
Theorem create_entity_len_history (ops : list (ManagerOp El)) :
  (N.of_nat (creates El ops) + 1 < 2 ^ 64)%N ->
  let m := (run_mops El type_name (manager_default El) ops).2 in
  let e := (create_entity El m).1 in
  let m' := (create_entity El m).2 in
  children (entites El m) !! e = None /\
  len (entites El m') = S (len (entites El m)) /\
  len (entites El (delete_entity El m' e)) = len (entites El m).
Proof.
  intros Hn m e m'.
  destruct (run_mops_ids_gen ops (manager_default El)) as [_ Hcnt]; [simpl; lia|].
  simpl in Hcnt. fold m in Hcnt.
  pose proof (run_mops_bound ops (manager_default El) ltac:(simpl; lia)) as Hbd.
  fold m in Hbd.
  assert (He : e = Ent (N.of_nat (creates El ops) + 1)).
  { unfold e. simpl. rewrite Hcnt. simpl. f_equal. unfold u64_add.
    apply N.mod_small. lia. }
  assert (Hfresh : children (entites El m) !! e = None).
  { destruct (children (entites El m) !! e) eqn:Hc; [|reflexivity].
    exfalso. assert (Hs : is_Some (children (entites El m) !! e)) by eauto.
    assert (H0 : forall k, is_Some (children (entites El (manager_default El)) !! k) ->
              (0 < ent_val k <= ent_val (entity_counter El (manager_default El)))%N).
    { intros k [? Hk]. unfold manager_default, tree_default in Hk.
      cbn [entites children] in Hk. rewrite lookup_empty in Hk. discriminate. }
    specialize (Hbd H0 e Hs).
    rewrite He, Hcnt in Hbd. simpl in Hbd. lia. }
  assert (Ht' : entites El m' = insert_node (entites El m) e) by reflexivity.
  split; [exact Hfresh|]. split.
  - unfold len. rewrite Ht'. cbn [insert_node children].
    rewrite map_size_insert, Hfresh. reflexivity.
  - unfold len, delete_entity. cbn [entites]. rewrite Ht'. cbn [remove insert_node children].
    rewrite delete_insert_eq, delete_id by exact Hfresh. reflexivity.
Qed.
End ManagerMoreProofs.

(* ------------------------------------------------------------------ *)
(** ** The theorems at concrete inputs *)

Lemma add_child_existing_parent_witness :
  exists t', add_child demo_tree (Ent 1) (Ent 2) = (Ok tt, t') /\
             parent t' !! Ent 2 = Some (Some (Ent 1)) /\
             children t' !! Ent 1 = Some [Ent 2].
Proof.
  destruct (proj2 (add_child_existing_parent demo_tree (Ent 1) (Ent 2) []
                     ltac:(reflexivity))) as [t' [H1 [_ [H2 [_ [H3 _]]]]]].
  - intros [H _]. discriminate H.
  - exists t'. split; [exact H1|]. split; [exact H2|]. apply H3. discriminate.
Defined.

Lemma traversal_preorder_witness :
  collect 3 (snd (add_child (snd (add_child (snd (add_child demo_tree (Ent 1) (Ent 2)))
                                            (Ent 1) (Ent 3))) (Ent 3) (Ent 4)))
          into_iter_current 5
  = Some [Some (Ent 1); Some (Ent 2); Some (Ent 3); Some (Ent 4); None].
Proof.
  exact (proj1 traversal_preorder tree_default (Ent 1) (Ent 2) (Ent 3) (Ent 4)
           ltac:(apply (bool_decide_unpack _); vm_compute; exact I)
           3 ltac:(lia)).
Defined.

Lemma add_child_unknown_parent_witness :
  add_child tree_default none (Ent 2) = (Err NoRootEntity, tree_default) /\
  add_child (set_root tree_default (Ent 1)) (Ent 7) (Ent 2) =
    add_child (set_root tree_default (Ent 1)) (Ent 1) (Ent 2).
Proof.
  split.
  - exact (proj1 (add_child_unknown_parent tree_default none (Ent 2) ltac:(reflexivity))
             ltac:(reflexivity) ltac:(reflexivity)).
  - exact (proj2 (proj2 (proj2 (add_child_unknown_parent (set_root tree_default (Ent 1))
             (Ent 7) (Ent 2) ltac:(reflexivity)))) (Ent 1) ltac:(reflexivity)
             ltac:(discriminate)).
Defined.

Lemma delete_entity_spec_witness :
  get_component demo_el demo_type_name TyCounter (delete_entity demo_el demo_manager (Ent 1)) (Ent 1) = None /\
  delete_entity demo_el (manager_default demo_el) (Ent 9) = manager_default demo_el.
Proof.
  split.
  - exact (proj1 (proj2 (proj2 (proj2 (proj2 (proj2
             (delete_entity_spec demo_el demo_type_name demo_manager (Ent 1))))))) TyCounter).
  - exact (proj2 (proj2 (proj2 (proj2 (proj2 (proj2
             (delete_entity_spec demo_el demo_type_name (manager_default demo_el) (Ent 9)))))))
             ltac:(reflexivity) ltac:(reflexivity) (fun s => lookup_empty _)).
Defined.

Lemma insert_get_component_witness :
  get_component demo_el demo_type_name TyI32
    (insert_component demo_el demo_type_name TyI32 (manager_default demo_el) (Ent 1) 1%Z) (Ent 1)
    = Some 1%Z /\
  get_component demo_el demo_type_name TyF32
    (insert_component demo_el demo_type_name TyI32 (manager_default demo_el) (Ent 1) 1%Z) (Ent 1)
    = None.
Proof.
  pose proof (insert_get_component demo_el demo_type_name TyI32 (manager_default demo_el)
                (Ent 1) 1%Z) as [H1 H2].
  split; [exact H1|].
  exact (H2 TyF32 ltac:(discriminate) ltac:(reflexivity)).
Defined.

Lemma walk_closed_tree_new : walk_closed (tree_new (Ent 1)).
Proof.
  split.
  - intros r Hr. vm_compute in Hr. inversion Hr; subst. split; eexists; reflexivity.
  - intros k l x Hk Hx. simpl in Hk. rewrite lookup_insert in Hk.
    destruct (decide (Ent 1 = k)).
    + inversion Hk; subst. inversion Hx.
    + rewrite lookup_empty in Hk. discriminate.
Qed.

Lemma next_missing_entry_panics_witness :
  next 1 tree_default (Some (Ent 3)) = StepPanic PanicNotInTree /\
  StepPanic PanicNotInTree ∉ run_steps 1 (tree_new (Ent 1)) into_iter_current 4.
Proof.
  split.
  - exact (proj1 next_missing_entry_panics 1 tree_default (Ent 3) ltac:(reflexivity)).
  - exact (proj2 next_missing_entry_panics 1 (tree_new (Ent 1)) 4 walk_closed_tree_new).
Defined.

Lemma tree_inv_preserved_witness :
  tree_inv (snd (add_child (insert_node tree_default (Ent 1)) (Ent 1) (Ent 2))).
Proof.
  pose proof tree_inv_preserved as [H0 [_ Hops]].
  destruct (Hops tree_default H0) as [Hins _].
  destruct (Hops (insert_node tree_default (Ent 1)) (Hins (Ent 1))) as [_ [_ [Hadd _]]].
  exact (Hadd (Ent 1) (Ent 2)).
Defined.

Lemma get_children_parent_errors_witness :
  get_children (run_ops tree_default [OpInsertNode (Ent 1); OpSetRoot (Ent 1)]) (Ent 2)
    = Err (EntityNotFound (Ent 2) LocEntityTree) /\
  get_parent (run_ops tree_default [OpInsertNode (Ent 1); OpSetRoot (Ent 1); OpAddChild (Ent 1) (Ent 3)]) (Ent 1)
    = Err (EntityNotFound (Ent 1) LocEntityTree).
Proof.
  split.
  - refine (proj1 (proj1 get_children_parent_errors
                     [OpInsertNode (Ent 1); OpSetRoot (Ent 1)] (Ent 2) _)).
    repeat constructor; try discriminate; intros p; discriminate.
  - refine (proj1 (proj2 get_children_parent_errors [] [OpAddChild (Ent 1) (Ent 3)] (Ent 1) _)).
    repeat constructor; try discriminate; intros p H; inversion H.
Defined.

Lemma create_entity_ids_witness :
  exists m, create_entities demo_el 3 (manager_default demo_el) = ([Ent 1; Ent 2; Ent 3], m).
Proof.
  pose proof (proj2 (create_entity_ids demo_el) 3 ltac:(lia)) as H.
  destruct (create_entities demo_el 3 (manager_default demo_el)) as [es m].
  destruct H as [Hes _]. exists m. rewrite Hes. reflexivity.
Defined.

Lemma add_child_err_unchanged_witness :
  snd (add_child tree_default (Ent 3) (Ent 4)) = tree_default.
Proof.
  exact (proj1 (add_child_err_unchanged tree_default tree_default (Ent 3) (Ent 4)
                  (EntityNotFound (Ent 3) LocEntityTree) ltac:(reflexivity))).
Defined.

Lemma remove_root_panics_witness :
  run_steps 3 (remove demo_tree (Ent 1)) into_iter_current 2 =
    [StepNext (Some (Ent 1)) (Some (Ent 1)); StepPanic PanicNotInTree].
Proof. exact (remove_root_panics demo_tree (Ent 1) 3 ltac:(reflexivity)). Defined.

Lemma next_after_end_witness :
  collect 1 (tree_new (Ent 1)) (Some (Ent 1)) 3 = Some [None; None; None].
Proof.
  exact (next_after_end 1 (tree_new (Ent 1)) (Some (Ent 1)) (Some (Ent 1))
           ltac:(vm_compute; reflexivity) 3).
Defined.

Lemma tree_new_spec_witness :
  tree_new none = tree_default /\ len (tree_new (Ent 2)) = 1 /\
  collect 1 (tree_new (Ent 2)) into_iter_current 2 = Some [Some (Ent 2); None].
Proof.
  split; [exact (proj1 (proj1 (tree_new_spec none 1) ltac:(reflexivity)))|].
  destruct (proj2 (tree_new_spec (Ent 2) 1) ltac:(discriminate)) as [_ [Hl Hc]].
  split; [exact Hl|exact (Hc ltac:(lia))].
Defined.

Lemma add_child_keeps_tree_witness :
  collect 2 (snd (add_child (tree_new (Ent 1)) (Ent 1) (Ent 2))) into_iter_current 3 =
    Some [Some (Ent 1); Some (Ent 2); None].
Proof.
  assert (HT : is_tree_of (tree_new (Ent 1)) (RNode (Ent 1) [])).
  { split; [reflexivity|split; [reflexivity|split]].
    - constructor; [split; [reflexivity|constructor]|constructor].
    - apply NoDup_singleton. }
  exact (proj2 (proj2 (proj2 (add_child_keeps_tree (tree_new (Ent 1)) (RNode (Ent 1) [])
           (Ent 1) (Ent 2) HT ltac:(left) ltac:(vm_compute; reflexivity)))) 2 ltac:(simpl; lia)).
Defined.

Lemma entity_display_inj_witness :
  entity_display (Ent 42) = "Entity(42)" /\ Ent 42 = Ent 42.
Proof.
  split; [vm_compute; reflexivity|].
  exact (entity_display_inj (Ent 42) (Ent 42) ltac:(reflexivity)).
Defined.

Lemma get_component_mut_spec_witness :
  exists v set,
    get_component_mut demo_el demo_type_name TyCounter demo_manager (Ent 1) = Some (v, set) /\
    get_component demo_el demo_type_name TyCounter demo_manager (Ent 1) = Some v /\
    get_component demo_el demo_type_name TyCounter (set {| value := 7 |}) (Ent 1) =
      Some {| value := 7 |}.
Proof.
  destruct (get_component_mut demo_el demo_type_name TyCounter demo_manager (Ent 1))
    as [[v set]|] eqn:E.
  - exists v, set.
    destruct (proj2 (get_component_mut_spec demo_el demo_type_name TyCounter demo_manager (Ent 1))
                v set E) as [H1 H2].
    split; [reflexivity|]. split; [exact H1|]. exact (proj1 (H2 {| value := 7 |})).
  - exfalso. vm_compute in E. discriminate E.
Defined.

Lemma created_ids_history_witness :
  (run_mops demo_el demo_type_name (manager_default demo_el)
     [MCreate demo_el; MDelete demo_el (Ent 1); MCreate demo_el]).1 = [Ent 1; Ent 2].
Proof.
  exact (proj1 (created_ids_history demo_el demo_type_name
           [MCreate demo_el; MDelete demo_el (Ent 1); MCreate demo_el] ltac:(vm_compute; reflexivity))).
Defined.

Lemma create_entity_len_history_witness :
  let m := (run_mops demo_el demo_type_name (manager_default demo_el)
              [MCreate demo_el; MCreate demo_el]).2 in
  len (entites demo_el (create_entity demo_el m).2) = S (len (entites demo_el m)).
Proof.
  exact (proj1 (proj2 (create_entity_len_history demo_el demo_type_name
           [MCreate demo_el; MCreate demo_el] ltac:(vm_compute; reflexivity)))).
Defined.
